(** * json-async-stringify: the transform engine of [asyncStringify]

    A shallow embedding of [src/index.ts].  The engine walks a JavaScript
    value graph, awaits a user replacer at every node, rejects cycles and
    BigInts, and hands the resolved tree to the platform's [JSON.stringify].

    Scope of the model.
    - The store is a list of objects addressed by index; a value is a
      primitive or a reference, so aliasing, diamonds and cycles are
      expressible.
    - An object is an array (with holes) or a keyed record whose list order
      is the order in which [for..in] and [JSON.stringify] enumerate its own
      enumerable string keys.  A [toJSON] member that is inherited or not
      enumerable (as for Date) is kept apart from the enumerable members.
    - The replacer may read and write the store.  A function value, and so
      a [toJSON] method, reads the store.  Both always settle, with a value
      or an exception.
    - [await] is sequencing: the model has a single thread of control.
    - The arrays and records that the engine builds are a tree, not objects
      of the store: nothing else holds a reference to them.
    - Numbers are opaque to the engine; only integral and non-finite ones
      are represented.  Function values carry no properties; boxed
      primitives, accessors, promises as values and the [__proto__] setter
      are not modelled.
    - [JSON.stringify] is the platform's, after ECMA-262 (SerializeJSONProperty,
      SerializeJSONObject, SerializeJSONArray, QuoteJSONString), without a
      replacer function.  The same clauses with a replacer function give
      the synchronous encoder that the engine is compared with.
    - Recursion and loops that the source leaves unbounded take a fuel
      argument; [OutOfFuel] is the run that has not settled.

    Layout: the embedding, then the vocabulary of the statements and the
    sample inputs, then the proofs. *)

From stdpp Require Import base gmap sets list strings pretty.
From Stdlib Require Import ZArith Ascii Lia.

Set Warnings "-register-all,-clear-no-such-hyp".
Open Scope string_scope.
Open Scope list_scope.

(** ** Values and the store *)

(** References into the store and names of function values. *)
Abbreviation ref := nat.
Abbreviation fn := nat.

Inductive number :=
| Finite (z : Z)
| NaN
| Infinity (negative : bool).

Inductive value :=
| VUndefined
| VNull
| VBool (b : bool)
| VNumber (x : number)
| VString (s : string)
| VBigInt (z : Z)
| VSymbol (id : nat)
| VFunction (f : fn)
| VObject (r : ref).

(** [Items]: an array, [None] is an absent slot.  [Props]: own enumerable
    string-keyed properties in enumeration order. *)
Inductive body :=
| Items (items : list (option value))
| Props (props : list (string * value)).

Record object := Object {
  inherited_toJSON : value;
  o_body : body
}.

Abbreviation heap := (list object).

(** The [this] of a replacer call: an object of the store, or the synthetic
    [{ '': value }] that [asyncStringify] builds for the root. *)
Inductive holder :=
| HRoot (v : value)
| HObject (r : ref).

Inductive exn :=
| TypeError (msg : string)
| Thrown (v : value).

(** What user code settles with. *)
Inductive result :=
| Ok (v : value)
| Err (e : exn).

Inductive outcome (A : Type) :=
| Ret (a : A)
| Throw (e : exn)
| OutOfFuel.
Arguments Ret {A} a.
Arguments Throw {A} e.
Arguments OutOfFuel {A}.

Definition settled {A} (o : outcome A) : Prop :=
  match o with OutOfFuel => False | _ => True end.

Definition is_object (v : value) : bool :=
  match v with VObject _ => true | _ => false end.

(** ** Reading the store *)

Fixpoint assoc {A} (k : string) (ps : list (string * A)) : option A :=
  match ps with
  | [] => None
  | (k', v) :: ps' => if bool_decide (k' = k) then Some v else assoc k ps'
  end.

(** [result[k] = v] on an ordered record: overwrite in place or append. *)
Fixpoint prop_set {A} (k : string) (v : A) (ps : list (string * A)) : list (string * A) :=
  match ps with
  | [] => [(k, v)]
  | (k', v') :: ps' =>
      if bool_decide (k' = k) then (k', v) :: ps' else (k', v') :: prop_set k v ps'
  end.

Definition lookup_body (h : heap) (r : ref) : option body :=
  o_body <$> h !! r.

(** [replaced.toJSON] *)
Definition lookup_toJSON (h : heap) (r : ref) : value :=
  match h !! r with
  | Some o =>
      match o_body o with
      | Props ps => default (inherited_toJSON o) (assoc "toJSON" ps)
      | Items _ => inherited_toJSON o
      end
  | None => VUndefined
  end.

(** [Array.isArray(replaced)] *)
Definition is_array (h : heap) (r : ref) : bool :=
  match lookup_body h r with Some (Items _) => true | _ => false end.

(** [replaced.length] *)
Definition array_length (h : heap) (r : ref) : nat :=
  match lookup_body h r with Some (Items l) => length l | _ => 0 end.

(** [replaced[i]]: an absent slot reads as undefined. *)
Definition array_get (h : heap) (r : ref) (i : nat) : value :=
  match lookup_body h r with
  | Some (Items l) => default VUndefined (mjoin (l !! i))
  | _ => VUndefined
  end.

(** The keys [for (const k in replaced)] runs over. *)
Definition own_keys (h : heap) (r : ref) : list string :=
  match lookup_body h r with
  | Some (Props ps) => remove_dups (ps.*1)
  | _ => []
  end.

(** [Object.prototype.hasOwnProperty.call(replaced, k)] *)
Definition has_own (h : heap) (r : ref) (k : string) : bool :=
  match lookup_body h r with
  | Some (Props ps) => bool_decide (is_Some (assoc k ps))
  | _ => false
  end.

(** [replaced[k]] *)
Definition get_prop (h : heap) (r : ref) (k : string) : value :=
  match lookup_body h r with
  | Some (Props ps) => default VUndefined (assoc k ps)
  | _ => VUndefined
  end.

(** The values stored in a container. *)
Definition children (h : heap) (r : ref) : list value :=
  match lookup_body h r with
  | Some (Items l) => default VUndefined <$> l
  | Some (Props ps) => ps.*2
  | None => []
  end.

(** ** A state and exception monad *)

Definition M (S A : Type) : Type := S -> outcome A * S.

Definition ret {S A} (a : A) : M S A := fun s => (Ret a, s).
Definition throw {S A} (e : exn) : M S A := fun s => (Throw e, s).
Definition out_of_fuel {S A} : M S A := fun s => (OutOfFuel, s).

Definition bind {S A B} (m : M S A) (k : A -> M S B) : M S B :=
  fun s =>
    match m s with
    | (Ret a, s') => k a s'
    | (Throw e, s') => (Throw e, s')
    | (OutOfFuel, s') => (OutOfFuel, s')
    end.

Notation "'let*' x ':=' m 'in' k" := (bind m (fun x => k))
  (at level 10, x name, m at level 100, k at level 200).

(** [try { body } finally { fin }], for a finalizer that cannot throw. *)
Definition try_finally {S A} (m : M S A) (fin : S -> S) : M S A :=
  fun s =>
    match m s with
    | (OutOfFuel, s') => (OutOfFuel, s')
    | (o, s') => (o, fin s')
    end.

(** A loop over a list fixed before the first iteration. *)
Section For_each.
Context {S A B : Type} (f : B -> A -> M S B).

Fixpoint for_each (l : list A) (acc : B) : M S B :=
  match l with
  | [] => ret acc
  | x :: l' => let* acc' := f acc x in for_each l' acc'
  end.
End For_each.

(** ** The engine *)

(** One replacer invocation, as seen from outside: its arguments and
    result, with the ancestor set and the chain of enclosing containers at
    that moment.  [c_path] is bookkeeping of the recursion, recorded for the
    statements about the active path; nothing is computed from it. *)
Record call_record := Call {
  c_path : list ref;
  c_this : holder;
  c_key : string;
  c_val : value;
  c_visited : gset ref;
  c_result : result
}.

Record state := State {
  st_heap : heap;
  visited : gset ref;
  calls : list call_record
}.

Definition msg_bigint : string := "Do not know how to serialize a BigInt".
Definition msg_circular : string := "Converting circular structure to JSON".

(** The resolved tree.  Arrays and records built by the engine are fresh and
    never shared; [RVal] carries what the engine returns untouched: a
    primitive, a function, a symbol, or the result of a [toJSON] call (which
    may be a reference into the store). *)
Inductive resolved :=
| RVal (v : value)
| RArr (items : list resolved)
| RObj (props : list (string * resolved)).

(** The [this] of a method call: a value of the store, or a record that
    the engine built. *)
Inductive receiver :=
| OfStore (v : value)
| Fresh (props : list (string * resolved)).

Section Engine.
(** [replacer.call(parent, key, val)], awaited. *)
Variable replacer : holder -> string -> value -> heap -> result * heap.
(** [f.call(this, ...args)] for a function value [f]. *)
Variable call : fn -> heap -> receiver -> list value -> result.

Definition call_replacer (path : list ref) (parent : holder) (key : string)
    (val : value) : M state value :=
  fun st =>
    let '(res, h') := replacer parent key val (st_heap st) in
    let st' := {| st_heap := h';
                  visited := visited st;
                  calls := calls st ++ [Call path parent key val (visited st) res] |} in
    match res with
    | Ok v => (Ret v, st')
    | Err e => (Throw e, st')
    end.

Definition read {A} (f : heap -> A) : M state A :=
  fun st => (Ret (f (st_heap st)), st).

Definition call_method (f : fn) (this : value) (args : list value) : M state value :=
  fun st =>
    match call f (st_heap st) (OfStore this) args with
    | Ok v => (Ret v, st)
    | Err e => (Throw e, st)
    end.

Definition visited_has (r : ref) : M state bool :=
  fun st => (Ret (bool_decide (r ∈ visited st)), st).

Definition visited_add (r : ref) : M state unit :=
  fun st => (Ret tt, {| st_heap := st_heap st;
                        visited := {[r]} ∪ visited st;
                        calls := calls st |}).

Definition visited_delete (r : ref) (st : state) : state :=
  {| st_heap := st_heap st; visited := visited st ∖ {[r]}; calls := calls st |}.

(** [for (let i = 0; i < replaced.length; i++) result.push(body(i))]:
    the length is read again before every iteration. *)
Fixpoint array_loop (body : nat -> M state resolved) (fuel : nat) (r : ref)
    (i : nat) (acc : list resolved) : M state (list resolved) :=
  match fuel with
  | 0 => out_of_fuel
  | S fuel' =>
      let* len := read (fun h => array_length h r) in
      if bool_decide (i < len) then
        let* t := body i in
        array_loop body fuel' r (S i) (acc ++ [t])
      else ret acc
  end.

Fixpoint transform (fuel : nat) (path : list ref) (parent : holder)
    (key : string) (val : value) : M state resolved :=
  match fuel with
  | 0 => out_of_fuel
  | S n =>
      let* replaced := call_replacer path parent key val in
      match replaced with
      | VBigInt _ => throw (TypeError msg_bigint)
      | VNull | VUndefined | VString _ | VNumber _ | VBool _ | VFunction _ =>
          ret (RVal replaced)
      | VObject r =>
          let* toJSON := read (fun h => lookup_toJSON h r) in
          match toJSON with
          | VFunction f =>
              let* w := call_method f replaced [] in
              ret (RVal w)
          | _ =>
              let* seen := visited_has r in
              if seen then throw (TypeError msg_circular)
              else
                let* _ := visited_add r in
                try_finally
                  (let* arr := read (fun h => is_array h r) in
                   if arr then
                     let* items :=
                       array_loop
                         (fun i =>
                            let* v := read (fun h => array_get h r i) in
                            transform n (r :: path) (HObject r) (pretty i) v)
                         n r 0 [] in
                     ret (RArr items)
                   else
                     let* ks := read (fun h => own_keys h r) in
                     let* props :=
                       for_each
                         (fun acc k =>
                            let* own := read (fun h => has_own h r k) in
                            if own then
                              let* v := read (fun h => get_prop h r k) in
                              let* t := transform n (r :: path) (HObject r) k v in
                              ret (prop_set k t acc)
                            else ret acc)
                         ks [] in
                     ret (RObj props))
                  (visited_delete r)
          end
      | VSymbol _ => ret (RVal replaced)
      end
  end.

(** The pieces of [transform], named for the proofs. *)
Definition as_function (v : value) : option fn :=
  match v with VFunction f => Some f | _ => None end.

Definition array_body (n : nat) (path : list ref) (r : ref) (i : nat) : M state resolved :=
  let* v := read (fun h => array_get h r i) in
  transform n (r :: path) (HObject r) (pretty i) v.

Definition member_body (n : nat) (path : list ref) (r : ref)
    (acc : list (string * resolved)) (k : string) : M state (list (string * resolved)) :=
  let* own := read (fun h => has_own h r k) in
  if own then
    let* v := read (fun h => get_prop h r k) in
    let* t := transform n (r :: path) (HObject r) k v in
    ret (prop_set k t acc)
  else ret acc.

Definition descend (n : nat) (path : list ref) (r : ref) : M state resolved :=
  let* arr := read (fun h => is_array h r) in
  if arr then
    let* items := array_loop (array_body n path r) n r 0 [] in
    ret (RArr items)
  else
    let* ks := read (fun h => own_keys h r) in
    let* props := for_each (member_body n path r) ks [] in
    ret (RObj props).

Definition enter (n : nat) (path : list ref) (r : ref) : M state resolved :=
  let* seen := visited_has r in
  if seen then throw (TypeError msg_circular)
  else
    let* _ := visited_add r in
    try_finally (descend n path r) (visited_delete r).

Definition transform_step (n : nat) (path : list ref) (parent : holder)
    (key : string) (val : value) : M state resolved :=
  let* replaced := call_replacer path parent key val in
  match replaced with
  | VBigInt _ => throw (TypeError msg_bigint)
  | VObject r =>
      let* toJSON := read (fun h => lookup_toJSON h r) in
      match as_function toJSON with
      | Some f =>
          let* w := call_method f replaced [] in
          ret (RVal w)
      | None => enter n path r
      end
  | _ => ret (RVal replaced)
  end.
End Engine.

(** ** The platform's [JSON.stringify]

    ECMA-262 25.5.2, with no replacer function and no property list.  The
    serializer first builds the JSON document, then lays it out with the
    gap; a [toJSON] method is called with the key as its argument. *)

Inductive json :=
| JNull
| JBool (b : bool)
| JNumber (z : Z)
| JString (s : string)
| JArray (items : list json)
| JObject (members : list (string * json)).

Definition obind {A B} (o : outcome A) (k : A -> outcome B) : outcome B :=
  match o with
  | Ret a => k a
  | Throw e => Throw e
  | OutOfFuel => OutOfFuel
  end.

Notation "'let+' x ':=' m 'in' k" := (obind m (fun x => k))
  (at level 10, x name, m at level 100, k at level 200).

Section Ofold.
Context {A B : Type} (f : B -> A -> outcome B).

Fixpoint ofold (l : list A) (acc : B) : outcome B :=
  match l with
  | [] => Ret acc
  | x :: l' => let+ acc' := f acc x in ofold l' acc'
  end.
End Ofold.

(** An array element that serializes to undefined is written [null]. *)
Definition push_element (acc : list json) (j : option json) : list json :=
  acc ++ [default JNull j].

(** An object member that serializes to undefined is left out. *)
Definition push_member (acc : list (string * json)) (k : string) (j : option json)
    : list (string * json) :=
  match j with
  | Some x => acc ++ [(k, x)]
  | None => acc
  end.

(** [typeof result.toJSON === 'function'] for a record built by the engine. *)
Definition record_hook (ps : list (string * resolved)) : option fn :=
  match assoc "toJSON" ps with
  | Some (RVal v) => as_function v
  | _ => None
  end.

(** The loops of SerializeJSONArray and SerializeJSONObject over a fresh
    container, given the serializer of its children. *)
Section Render_loops.
Context (render : string -> resolved -> outcome (option json)).

Fixpoint render_elements (i : nat) (l : list resolved) (acc : list json)
    : outcome (list json) :=
  match l with
  | [] => Ret acc
  | t :: l' =>
      let+ j := render (pretty i) t in
      render_elements (S i) l' (push_element acc j)
  end.

Fixpoint render_members (l : list (string * resolved)) (acc : list (string * json))
    : outcome (list (string * json)) :=
  match l with
  | [] => Ret acc
  | (k, t) :: l' =>
      let+ j := render k t in
      render_members l' (push_member acc k j)
  end.
End Render_loops.

Section Serialize.
Variable call : fn -> heap -> receiver -> list value -> result.
Variable h : heap.

(** SerializeJSONProperty, step 2: the value is replaced by the result of
    its [toJSON] method, if it has one. *)
Definition hook_step (key : string) (v : value) : outcome value :=
  match v with
  | VObject r =>
      match lookup_toJSON h r with
      | VFunction f =>
          match call f h (OfStore v) [VString key] with
          | Ok w => Ret w
          | Err e => Throw e
          end
      | _ => Ret v
      end
  | _ => Ret v
  end.

(** SerializeJSONProperty from step 4 on, with SerializeJSONObject and
    SerializeJSONArray; [stack] holds the containers being serialized. *)
Fixpoint ser_value (fuel : nat) (stack : list ref) (v : value) : outcome (option json) :=
  match fuel with
  | 0 => OutOfFuel
  | S n =>
      match v with
      | VNull => Ret (Some JNull)
      | VBool b => Ret (Some (JBool b))
      | VString s => Ret (Some (JString s))
      | VNumber (Finite z) => Ret (Some (JNumber z))
      | VNumber _ => Ret (Some JNull)
      | VBigInt _ => Throw (TypeError msg_bigint)
      | VUndefined | VFunction _ | VSymbol _ => Ret None
      | VObject r =>
          if bool_decide (r ∈ stack) then Throw (TypeError msg_circular)
          else if is_array h r then
            let+ js :=
              ofold
                (fun acc i =>
                   let+ v' := hook_step (pretty i) (array_get h r i) in
                   let+ j := ser_value n (r :: stack) v' in
                   Ret (push_element acc j))
                (seq 0 (array_length h r)) [] in
            Ret (Some (JArray js))
          else
            let+ ms :=
              ofold
                (fun acc k =>
                   let+ v' := hook_step k (get_prop h r k) in
                   let+ j := ser_value n (r :: stack) v' in
                   Ret (push_member acc k j))
                (own_keys h r) [] in
            Ret (Some (JObject ms))
      end
  end.

Definition SerializeJSONProperty (fuel : nat) (stack : list ref) (key : string)
    (v : value) : outcome (option json) :=
  let+ v' := hook_step key v in
  ser_value fuel stack v'.

(** The same walk over a resolved tree: its arrays and records are the
    fresh containers the engine built, its leaves are values of the store.
    A fresh record has a [toJSON] method when the member of that name is a
    function; a fresh array has none. *)
Fixpoint resolved_to_json (fuel : nat) (key : string) (t : resolved)
    : outcome (option json) :=
  match t with
  | RVal v => SerializeJSONProperty fuel [] key v
  | RArr ts =>
      let+ js := render_elements (resolved_to_json fuel) 0 ts [] in
      Ret (Some (JArray js))
  | RObj ps =>
      match record_hook ps with
      | Some f =>
          match call f h (Fresh ps) [VString key] with
          | Ok w => ser_value fuel [] w
          | Err e => Throw e
          end
      | None =>
          let+ ms := render_members (resolved_to_json fuel) ps [] in
          Ret (Some (JObject ms))
      end
  end.
End Serialize.

(** *** Layout *)

Definition dquote : string := String "034"%char "".
Definition backslash : string := String "092"%char "".
Definition newline : string := String "010"%char "".

Definition hex_digit (n : nat) : string :=
  match String.get n "0123456789abcdef" with
  | Some c => String c ""
  | None => "0"
  end.

Definition escape_char (c : ascii) : string :=
  let n := nat_of_ascii c in
  if bool_decide (n = 8) then backslash +:+ "b"
  else if bool_decide (n = 9) then backslash +:+ "t"
  else if bool_decide (n = 10) then backslash +:+ "n"
  else if bool_decide (n = 12) then backslash +:+ "f"
  else if bool_decide (n = 13) then backslash +:+ "r"
  else if bool_decide (n = 34) then backslash +:+ dquote
  else if bool_decide (n = 92) then backslash +:+ backslash
  else if bool_decide (n < 32) then
    backslash +:+ "u00" +:+ hex_digit (n / 16) +:+ hex_digit (n mod 16)
  else String c "".

Fixpoint escape (s : string) : string :=
  match s with
  | EmptyString => ""
  | String c s' => escape_char c +:+ escape s'
  end.

(** QuoteJSONString *)
Definition quote (s : string) : string := dquote +:+ escape s +:+ dquote.

Fixpoint join (sep : string) (parts : list string) : string :=
  match parts with
  | [] => ""
  | [p] => p
  | p :: ps => p +:+ sep +:+ join sep ps
  end.

Definition wrap (open close gap indent : string) (parts : list string) : string :=
  match parts with
  | [] => open +:+ close
  | _ =>
      if bool_decide (gap = "") then open +:+ join "," parts +:+ close
      else
        open +:+ newline +:+ indent +:+ gap
          +:+ join ("," +:+ newline +:+ indent +:+ gap) parts
          +:+ newline +:+ indent +:+ close
  end.

Fixpoint print (gap indent : string) (j : json) : string :=
  match j with
  | JNull => "null"
  | JBool true => "true"
  | JBool false => "false"
  | JNumber z => pretty z
  | JString s => quote s
  | JArray js => wrap "[" "]" gap indent (map (print gap (indent +:+ gap)) js)
  | JObject ms =>
      wrap "{" "}" gap indent
        (map (fun m => quote (fst m) +:+ (if bool_decide (gap = "") then ":" else ": ")
                         +:+ print gap (indent +:+ gap) (snd m)) ms)
  end.

(** The [space] argument. *)
Inductive space_arg :=
| NoSpace
| SpaceNumber (n : Z)
| SpaceString (s : string).

Fixpoint spaces (n : nat) : string :=
  match n with 0 => "" | S n' => String " "%char (spaces n') end.

Fixpoint first_chars (n : nat) (s : string) : string :=
  match n, s with
  | S n', String c s' => String c (first_chars n' s')
  | _, _ => ""
  end.

Definition gap_of (space : space_arg) : string :=
  match space with
  | NoSpace => ""
  | SpaceNumber n => spaces (Z.to_nat (Z.min 10 n))
  | SpaceString s => first_chars 10 s
  end.

(** [JSON.stringify(t, null, space)]; [None] is the result undefined. *)
Definition JSON_stringify (call : fn -> heap -> receiver -> list value -> result)
    (h : heap) (fuel : nat) (t : resolved) (space : space_arg) : outcome (option string) :=
  let+ j := resolved_to_json call h fuel "" t in
  Ret (print (gap_of space) "" <$> j).

(** ** The entry point *)

Definition asyncStringify
    (replacer : holder -> string -> value -> heap -> result * heap)
    (call : fn -> heap -> receiver -> list value -> result)
    (fuel : nat) (value : value) (space : space_arg) (h : heap)
    : outcome (option string) * state :=
  (let* transformedValue := transform replacer call fuel [] (HRoot value) "" value in
   fun st => (JSON_stringify call (st_heap st) fuel transformedValue space, st))
    {| st_heap := h; visited := ∅; calls := [] |}.

(** * Specification vocabulary *)

(** [wp m s Q]: the run of [m] from [s] ends in an outcome and a state
    related by [Q]. *)
Definition wp {S A} (m : M S A) (s : S) (Q : outcome A -> S -> Prop) : Prop :=
  Q (m s).1 (m s).2.

(** At a replacer call the ancestor set holds exactly the containers of
    the active path. *)
Definition path_ok (c : call_record) : Prop := c_visited c = list_to_set (c_path c).

Definition log_inv (path : list ref) (st s : state) : Prop :=
  exists new, calls s = calls st ++ new /\
    (visited st = list_to_set path -> Forall path_ok new).

Definition trace_post {A} (path : list ref) (st : state) (o : outcome A) (st' : state) : Prop :=
  (settled o -> visited st' = visited st) /\ log_inv path st st'.

(** ** Sample inputs *)

Definition identity : holder -> string -> value -> heap -> result * heap :=
  fun _ _ v h => (Ok v, h).

Definition no_functions : fn -> heap -> receiver -> list value -> result :=
  fun _ _ _ _ => Ok VUndefined.

Definition plain (ps : list (string * value)) : object := Object VUndefined (Props ps).
Definition array (l : list (option value)) : object := Object VUndefined (Items l).
Definition num (z : Z) : value := VNumber (Finite z).

(** ** Sample stores and user code *)

(** A date-like object whose [toJSON] yields a BigInt, and which holds a
    reference to itself. *)
Definition odd_hook_heap : heap := [Object (VFunction 0) (Props [("self", VObject 0)])].
Definition bigint_hook : fn -> heap -> receiver -> list value -> result :=
  fun _ _ _ _ => Ok (VBigInt 7).

(** [{left: shared, right: shared}] with [shared = {x: 1}]. *)
Definition diamond_heap : heap :=
  [plain [("left", VObject 1); ("right", VObject 1)]; plain [("x", num 1)]].

Definition initial (h : heap) : state := {| st_heap := h; visited := ∅; calls := [] |}.

(** A replacer call whose result is a BigInt. *)
Definition bigint_call (c : call_record) : Prop :=
  exists z, c_result c = Ok (VBigInt z).

Definition bigint_post {A} (st : state) (o : outcome A) (st' : state) : Prop :=
  exists new, calls st' = calls st ++ new /\
    (Exists bigint_call new -> o = Throw (TypeError msg_bigint)).


(** [{big: 123n}] *)
Definition bigint_heap : heap := [plain [("big", VBigInt 123)]].


(** A replacer that leaves the store as it is. *)
Definition pure_replacer (replacer : holder -> string -> value -> heap -> result * heap) : Prop :=
  forall parent key val h, (replacer parent key val h).2 = h.

(** [c] was made strictly below the path [p]. *)
Definition deeper (p : list ref) (c : call_record) : Prop :=
  exists q, q <> [] /\ c_path c = q ++ p.

(** The log of one activation of [transform]: its own replacer call, then
    the calls made below it. *)
Definition block_post (replacer : holder -> string -> value -> heap -> result * heap)
    (fuel : nat) (path : list ref) (parent : holder) (key : string) (val : value)
    (st : state) (o : outcome resolved) (st' : state) : Prop :=
  (pure_replacer replacer -> st_heap st' = st_heap st) /\
  match fuel with
  | 0 => calls st' = calls st /\ o = OutOfFuel
  | S _ =>
      exists rest,
        calls st' = calls st ++
          Call path parent key val (visited st) (replacer parent key val (st_heap st)).1 :: rest /\
        Forall (deeper path) rest
  end.

(** A log made of one block per key, in the order of the keys: the call for
    the child under that key, at path [p] and with [this] as its context,
    followed by calls made strictly below [p]. *)
Inductive sibling_blocks (p : list ref) (this : holder)
    : list (string * value) -> list call_record -> Prop :=
| sb_nil : sibling_blocks p this [] []
| sb_cons k v kvs c sub rest :
    c_path c = p -> c_this c = this -> c_key c = k -> c_val c = v ->
    Forall (deeper p) sub ->
    sibling_blocks p this kvs rest ->
    sibling_blocks p this ((k, v) :: kvs) (c :: sub ++ rest).

(** The children of a container, with their keys, in the order of the
    traversal. *)
Definition children_kv (h : heap) (r : ref) : list (string * value) :=
  if is_array h r then (fun i => (pretty i, array_get h r i)) <$> seq 0 (array_length h r)
  else (fun k => (k, get_prop h r k)) <$> own_keys h r.

(** The keys are the indices from 0 upwards, or are taken in order from the
    container's own keys. *)
Definition order_ok (h : heap) (r : ref) (keys : list string) : Prop :=
  if is_array h r then keys = pretty <$> seq 0 (length keys)
  else sublist keys (own_keys h r).

Definition blocks_post (replacer : holder -> string -> value -> heap -> result * heap)
    {A} (path : list ref) (r : ref) (st : state) (o : outcome A) (st' : state) : Prop :=
  exists kvs tr,
    calls st' = calls st ++ tr /\
    sibling_blocks (r :: path) (HObject r) kvs tr /\
    order_ok (st_heap st) r kvs.*1 /\
    (pure_replacer replacer ->
       st_heap st' = st_heap st /\
       ((exists t, o = Ret t) -> kvs = children_kv (st_heap st) r)).


(** [{a: [10, 20], b: 2}] *)
Definition nested_heap : heap :=
  [plain [("a", VObject 1); ("b", num 2)]; array [Some (num 10); Some (num 20)]].


(** A resolved child that is undefined or a function. *)
Definition elided (t : resolved) : bool :=
  match t with
  | RVal VUndefined | RVal (VFunction _) => true
  | _ => false
  end.

Definition kept_member (p : string * resolved) : bool := negb (elided p.2).

Definition nullify (t : resolved) : resolved :=
  if elided t then RVal VNull else t.

(** [async (key, value) => key === 'private' ? undefined : value] *)
Definition hide_private : holder -> string -> value -> heap -> result * heap :=
  fun _ key val h =>
    if bool_decide (key = "private") then (Ok VUndefined, h) else (Ok val, h).

(** [{public: 'visible', private: 'hidden'}] *)
Definition account_heap : heap :=
  [plain [("public", VString "visible"); ("private", VString "hidden")]].

(** A replacer that puts a function under the key [toJSON] and resolves [a]
    to undefined, a function that returns the second object of the store,
    and the store [{toJSON: 's', a: 1}], [{a: null}]. *)
Definition planting : holder -> string -> value -> heap -> result * heap :=
  fun _ key val h =>
    if bool_decide (key = "toJSON") then (Ok (VFunction 0), h)
    else if bool_decide (key = "a") then (Ok VUndefined, h)
    else (Ok val, h).
Definition planted_method : fn -> heap -> receiver -> list value -> result :=
  fun _ _ _ _ => Ok (VObject 1).
Definition planted_heap : heap :=
  [plain [("toJSON", VString "s"); ("a", num 1)]; plain [("a", VNull)]].

(** [[1, , 3]] *)
Definition sparse_heap : heap := [array [Some (num 1); None; Some (num 3)]].


(** *** Measures of a store *)

(** The objects of the store that are not in the set [V]. *)
Definition unvisited (h : heap) (V : gset ref) : nat :=
  size (set_seq 0 (length h) ∖ V : gset ref).

(** The longest array of the store. *)
Definition width (h : heap) : nat :=
  max_list ((fun o => match o_body o with Items l => length l | Props _ => 0 end) <$> h).

(** Fuel that lets every walk over the store [h] settle: one unit per
    container on a path, and one per iteration of the longest array loop. *)
Definition enough_fuel (h : heap) : nat := length h + width h + 2.

(** The run settled and left the store and the ancestor set as they were. *)
Definition total_post {A} (st : state) (o : outcome A) (st' : state) : Prop :=
  settled o /\ st_heap st' = st_heap st /\ visited st' = visited st.


(** [async (key, value) => key === 'name' && typeof value === 'string'
      ? { first: value, last: 'Doe' } : value] *)
Definition expand_name : holder -> string -> value -> heap -> result * heap :=
  fun _ key val h =>
    match val with
    | VString s =>
        if bool_decide (key = "name") then
          (Ok (VObject (length h)),
           h ++ [plain [("first", VString s); ("last", VString "Doe")]])
        else (Ok val, h)
    | _ => (Ok val, h)
    end.

(** A replacer that returns every container as it is and wraps a number in
    a fresh object: [async (k, v) => typeof v === 'number' ? { a: v } : v]. *)
Definition boxing : holder -> string -> value -> heap -> result * heap :=
  fun _ _ v h =>
    match v with
    | VNumber x => (Ok (VObject (length h)), h ++ [plain [("a", VNumber x)]])
    | _ => (Ok v, h)
    end.


(** *** Cycles *)

(** A replacer that returns every container it is given. *)
Definition keeps_containers (replacer : holder -> string -> value -> heap -> result * heap) : Prop :=
  forall parent key r h, (replacer parent key (VObject r) h).1 = Ok (VObject r).

(** [on_cycle h anc v]: walking down from [v] through containers without a
    [toJSON] method, with [anc] the containers above, some path comes back
    to a container that is on it. *)
Inductive on_cycle (h : heap) : gset ref -> value -> Prop :=
| cycle_closes anc r :
    as_function (lookup_toJSON h r) = None ->
    r ∈ anc ->
    on_cycle h anc (VObject r)
| cycle_below anc r k c :
    as_function (lookup_toJSON h r) = None ->
    r ∉ anc ->
    (k, c) ∈ children_kv h r ->
    on_cycle h ({[r]} ∪ anc) c ->
    on_cycle h anc (VObject r).

(** The exceptions a walk can end with: the two TypeErrors of the engine,
    and what a [toJSON] method or the replacer itself throws. *)
Definition failure_of (replacer : holder -> string -> value -> heap -> result * heap)
    (call : fn -> heap -> receiver -> list value -> result) (h : heap) (e : exn) : Prop :=
  e = TypeError msg_circular \/
  e = TypeError msg_bigint \/
  (exists f this, call f h this [] = Err e) \/
  (exists parent key val, (replacer parent key val h).1 = Err e).

(** [{x: 1n, self: <the object itself>}] *)
Definition bigint_cycle_heap : heap := [plain [("x", VBigInt 1); ("self", VObject 0)]].

(** [a = {b: {c: a}}], reached as [{a: a}]. *)
Definition deep_cycle_heap : heap :=
  [plain [("a", VObject 1)]; plain [("b", VObject 2)]; plain [("c", VObject 1)]].


(** *** Agreement with the synchronous encoder *)

(** The value has no [toJSON] method. *)
Definition hook_free (h : heap) (v : value) : Prop :=
  match v with
  | VObject r => as_function (lookup_toJSON h r) = None
  | _ => True
  end.

(** Every [toJSON] method of the store ignores its argument and returns
    data: not a function, and nothing that has a [toJSON] method of its
    own. *)
Definition hooks_ok (call : fn -> heap -> receiver -> list value -> result) (h : heap) : Prop :=
  forall r f,
    as_function (lookup_toJSON h r) = Some f ->
    (forall key, call f h (OfStore (VObject r)) [VString key] = call f h (OfStore (VObject r)) []) /\
    (forall w, call f h (OfStore (VObject r)) [] = Ok w ->
       hook_free h w /\ as_function w = None).

(** [acyclic call h anc v]: the walk of the serializer from [v], which
    follows the result of a [toJSON] method where there is one and the
    children of a container otherwise, never comes back to a container it
    is inside of; [anc] holds the containers above [v]. *)
Inductive acyclic (call : fn -> heap -> receiver -> list value -> result) (h : heap)
    : gset ref -> value -> Prop :=
| acyclic_leaf anc v :
    is_object v = false ->
    acyclic call h anc v
| acyclic_hook anc r f :
    as_function (lookup_toJSON h r) = Some f ->
    (forall w, call f h (OfStore (VObject r)) [] = Ok w -> acyclic call h anc w) ->
    acyclic call h anc (VObject r)
| acyclic_container anc r :
    as_function (lookup_toJSON h r) = None ->
    r ∉ anc ->
    (forall k c, (k, c) ∈ children_kv h r -> acyclic call h ({[r]} ∪ anc) c) ->
    acyclic call h anc (VObject r).

(** Two outcomes agree: the same result, or a failure on both sides. *)
Definition agree {A} (o1 o2 : outcome A) : Prop :=
  match o1, o2 with
  | Ret a, Ret b => a = b
  | Throw _, Throw _ => True
  | _, _ => False
  end.

(** The loop bodies of SerializeJSONArray and SerializeJSONObject. *)
Definition element_step (call : fn -> heap -> receiver -> list value -> result) (h : heap)
    (n : nat) (stack : list ref) (r : ref) (acc : list json) (i : nat) : outcome (list json) :=
  let+ v' := hook_step call h (pretty i) (array_get h r i) in
  let+ j := ser_value call h n (r :: stack) v' in
  Ret (push_element acc j).

Definition member_step (call : fn -> heap -> receiver -> list value -> result) (h : heap)
    (n : nat) (stack : list ref) (r : ref) (acc : list (string * json)) (k : string)
    : outcome (list (string * json)) :=
  let+ v' := hook_step call h k (get_prop h r k) in
  let+ j := ser_value call h n (r :: stack) v' in
  Ret (push_member acc k j).

(** A date-like object whose [toJSON] returns another date-like object,
    whose [toJSON] returns a string. *)
Definition two_hooks_heap : heap :=
  [Object (VFunction 0) (Props []); Object (VFunction 1) (Props [])].
Definition two_hooks : fn -> heap -> receiver -> list value -> result :=
  fun f _ _ _ => if bool_decide (f = 0) then Ok (VObject 1) else Ok (VString "x").

(** [{when: <date>}] with a date whose [toJSON] returns a string. *)
Definition dated_heap : heap :=
  [plain [("when", VObject 1); ("n", num 1)]; Object (VFunction 0) (Props [])].
Definition date_hook : fn -> heap -> receiver -> list value -> result :=
  fun _ _ _ _ => Ok (VString "2024-01-01T00:00:00.000Z").

(** * Further vocabulary *)

(** ** The context of a replacer call *)

(** The call that an activation of [transform] makes for its own node. *)
Definition own_call (path : list ref) (parent : holder) (key : string) (val : value)
    (c : call_record) : Prop :=
  c_path c = path /\ c_this c = parent /\ c_key c = key /\ c_val c = val.

(** A call made for a child of a container of the store [h]: its context
    is the innermost container of its path, and that container holds the
    value under the key. *)
Definition child_call (h : heap) (c : call_record) : Prop :=
  exists r p, c_path c = r :: p /\ c_this c = HObject r /\
    (c_key c, c_val c) ∈ children_kv h r.

(** [this[key]] is the value: the context is the synthetic [{ '': root }]
    and the key is empty, or the context is a container of the store that
    holds the value under the key and is the innermost one of the path. *)
Definition holds_value (h : heap) (root : value) (c : call_record) : Prop :=
  match c_this c with
  | HRoot v => v = root /\ c_key c = "" /\ c_val c = root /\ c_path c = []
  | HObject r => (c_key c, c_val c) ∈ children_kv h r /\ head (c_path c) = Some r
  end.

(** A path of the recursion over the store [h]: containers of the store,
    none of them twice. *)
Definition simple_path (h : heap) (p : list ref) : Prop :=
  NoDup p /\ Forall (fun r => r < length h) p.

(** ** Failures *)

(** The exception that the engine raises on the spot for the result of a
    replacer call: the replacer's own, or the TypeError of a BigInt. *)
Definition rejection (c : call_record) : option exn :=
  match c_result c with
  | Err e => Some e
  | Ok (VBigInt _) => Some (TypeError msg_bigint)
  | Ok _ => None
  end.

(** The log of a run: no replacer call was rejected, or the last one was
    and the run ended with its exception. *)
Definition failfast_post {A} (st : state) (o : outcome A) (st' : state) : Prop :=
  exists new, calls st' = calls st ++ new /\
    (Forall (fun c => rejection c = None) new \/
     exists good c e,
       new = good ++ [c] /\ Forall (fun c => rejection c = None) good /\
       rejection c = Some e /\ o = Throw e).

(** Why the engine fails with [e] right after the replacer call [c], over
    the store [h] that the call left: the replacer threw [e]; it returned a
    BigInt; it returned a container whose [toJSON] method threw [e]; or it
    returned a container without such a method that is in the ancestor
    set. *)
Definition cause (call : fn -> heap -> receiver -> list value -> result) (h : heap)
    (c : call_record) (e : exn) : Prop :=
  match c_result c with
  | Err e' => e = e'
  | Ok (VBigInt _) => e = TypeError msg_bigint
  | Ok (VObject r) =>
      match as_function (lookup_toJSON h r) with
      | Some f => call f h (OfStore (VObject r)) [] = Err e
      | None => r ∈ c_visited c /\ e = TypeError msg_circular
      end
  | Ok _ => False
  end.

(** The exceptions of [JSON.stringify]: its two TypeErrors, and what a
    [toJSON] method threw. *)
Definition ser_failure (call : fn -> heap -> receiver -> list value -> result) (h : heap)
    (e : exn) : Prop :=
  e = TypeError msg_bigint \/ e = TypeError msg_circular \/
  exists f this key, call f h this [VString key] = Err e.

(** [async (key, value) => { if (key === 'a') throw 'boom'; return value }] *)
Definition throwing_at_a : holder -> string -> value -> heap -> result * heap :=
  fun _ key val h =>
    if bool_decide (key = "a") then (Err (Thrown (VString "boom")), h) else (Ok val, h).

(** A replacer that hands out no container of its own: a container it
    returns is the value it was given. *)
Definition no_substitution (replacer : holder -> string -> value -> heap -> result * heap)
    : Prop :=
  forall parent key val h r, (replacer parent key val h).1 = Ok (VObject r) -> val = VObject r.

(** User code threw [e]: a function value called by the engine, or the
    replacer. *)
Definition thrown_by_user (replacer : holder -> string -> value -> heap -> result * heap)
    (call : fn -> heap -> receiver -> list value -> result) (h : heap) (e : exn) : Prop :=
  (exists f this, call f h this [] = Err e) \/
  (exists parent key val, (replacer parent key val h).1 = Err e).

(** The number of nodes of a resolved tree. *)
Fixpoint rsize (t : resolved) : nat :=
  match t with
  | RVal _ => 1
  | RArr ts => S (list_sum (map rsize ts))
  | RObj ps => S (list_sum (map (fun p => rsize (snd p)) ps))
  end.

(** A resolved child that [JSON.stringify] does not write: undefined, a
    function or a symbol. *)
Definition unwritten (t : resolved) : bool :=
  match t with
  | RVal VUndefined | RVal (VFunction _) | RVal (VSymbol _) => true
  | _ => false
  end.

Definition written_member (p : string * resolved) : bool := negb (unwritten p.2).

Definition null_if_unwritten (t : resolved) : resolved :=
  if unwritten t then RVal VNull else t.

(** [async (key, value) => typeof value === 'string' ? Symbol() : value] *)
Definition strings_to_symbols : holder -> string -> value -> heap -> result * heap :=
  fun _ _ val h =>
    match val with
    | VString _ => (Ok (VSymbol 0), h)
    | _ => (Ok val, h)
    end.

(** ** [JSON.stringify] with a replacer function

    ECMA-262 25.5.2 with a ReplacerFunction and no property list: the
    synchronous encoder that [asyncStringify] is documented after.  The
    replacer may write the store, which the serializer threads; the value
    [holder[key]] is read by the caller of SerializeJSONProperty, which
    knows the index or the key. *)

Section Reference.
Variable replacer : holder -> string -> value -> heap -> result * heap.
Variable call : fn -> heap -> receiver -> list value -> result.

Definition get {A} (f : heap -> A) : M heap A := fun h => (Ret (f h), h).

(** SerializeJSONProperty, step 2: the [toJSON] method of the value. *)
Definition toJSON_step (key : string) (v : value) : M heap value :=
  fun h => (hook_step call h key v, h).

(** SerializeJSONProperty, step 3:
    [Call(ReplacerFunction, holder, « key, value »)]. *)
Definition replacer_step (this : holder) (key : string) (v : value) : M heap value :=
  fun h =>
    let '(res, h') := replacer this key v h in
    match res with
    | Ok w => (Ret w, h')
    | Err e => (Throw e, h')
    end.

Fixpoint SerializeJSONProperty_with (fuel : nat) (stack : list ref) (this : holder)
    (key : string) (v : value) : M heap (option json) :=
  match fuel with
  | 0 => out_of_fuel
  | S n =>
      let* v1 := toJSON_step key v in
      let* v2 := replacer_step this key v1 in
      match v2 with
      | VNull => ret (Some JNull)
      | VBool b => ret (Some (JBool b))
      | VString s => ret (Some (JString s))
      | VNumber (Finite z) => ret (Some (JNumber z))
      | VNumber _ => ret (Some JNull)
      | VBigInt _ => throw (TypeError msg_bigint)
      | VUndefined | VFunction _ | VSymbol _ => ret None
      | VObject r =>
          if bool_decide (r ∈ stack) then throw (TypeError msg_circular)
          else
            let* arr := get (fun h => is_array h r) in
            if arr then
              let* len := get (fun h => array_length h r) in
              let* js :=
                for_each
                  (fun acc i =>
                     let* x := get (fun h => array_get h r i) in
                     let* j := SerializeJSONProperty_with n (r :: stack) (HObject r)
                                 (pretty i) x in
                     ret (push_element acc j))
                  (seq 0 len) [] in
              ret (Some (JArray js))
            else
              let* ks := get (fun h => own_keys h r) in
              let* ms :=
                for_each
                  (fun acc k =>
                     let* x := get (fun h => get_prop h r k) in
                     let* j := SerializeJSONProperty_with n (r :: stack) (HObject r) k x in
                     ret (push_member acc k j))
                  ks [] in
              ret (Some (JObject ms))
      end
  end.

(** The loop bodies of SerializeJSONArray and SerializeJSONObject. *)
Definition element_step_with (n : nat) (stack : list ref) (r : ref)
    (acc : list json) (i : nat) : M heap (list json) :=
  let* x := get (fun h => array_get h r i) in
  let* j := SerializeJSONProperty_with n (r :: stack) (HObject r) (pretty i) x in
  ret (push_element acc j).

Definition member_step_with (n : nat) (stack : list ref) (r : ref)
    (acc : list (string * json)) (k : string) : M heap (list (string * json)) :=
  let* x := get (fun h => get_prop h r k) in
  let* j := SerializeJSONProperty_with n (r :: stack) (HObject r) k x in
  ret (push_member acc k j).

(** [JSON.stringify(value, replacer, space)] *)
Definition JSON_stringify_with (fuel : nat) (value : value) (space : space_arg)
    : M heap (option string) :=
  let* j := SerializeJSONProperty_with fuel [] (HRoot value) "" value in
  ret (print (gap_of space) "" <$> j).
End Reference.

(** A store without [toJSON] methods. *)
Definition plain_store (h : heap) : Prop :=
  forall r, as_function (lookup_toJSON h r) = None.

(** A replacer that puts no function of its own under the key [toJSON]. *)
Definition plants_no_hook (replacer : holder -> string -> value -> heap -> result * heap)
    : Prop :=
  forall parent val h f,
    (replacer parent "toJSON" val h).1 = Ok (VFunction f) -> val = VFunction f.

(** [async (key, value) => typeof value === 'number' ? value + 1 : value],
    on integers. *)
Definition increment : holder -> string -> value -> heap -> result * heap :=
  fun _ _ val h =>
    match val with
    | VNumber (Finite z) => (Ok (VNumber (Finite (z + 1))), h)
    | _ => (Ok val, h)
    end.

(** SerializeJSONProperty from step 4 on, named for the proofs. *)
Definition serialize_replaced
    (replacer : holder -> string -> value -> heap -> result * heap)
    (call : fn -> heap -> receiver -> list value -> result)
    (n : nat) (stack : list ref) (v2 : value) : M heap (option json) :=
  match v2 with
  | VNull => ret (Some JNull)
  | VBool b => ret (Some (JBool b))
  | VString s => ret (Some (JString s))
  | VNumber (Finite z) => ret (Some (JNumber z))
  | VNumber _ => ret (Some JNull)
  | VBigInt _ => throw (TypeError msg_bigint)
  | VUndefined | VFunction _ | VSymbol _ => ret None
  | VObject r =>
      if bool_decide (r ∈ stack) then throw (TypeError msg_circular)
      else
        let* arr := get (fun h => is_array h r) in
        if arr then
          let* len := get (fun h => array_length h r) in
          let* js := for_each (element_step_with replacer call n stack r) (seq 0 len) [] in
          ret (Some (JArray js))
        else
          let* ks := get (fun h => own_keys h r) in
          let* ms := for_each (member_step_with replacer call n stack r) ks [] in
          ret (Some (JObject ms))
  end.

(** The context of a call is a container that the engine has entered: one
    without a [toJSON] method, which is in the ancestor set. *)
Definition entered_context (h : heap) (this : holder) (V : gset ref) : Prop :=
  match this with
  | HRoot _ => True
  | HObject r => as_function (lookup_toJSON h r) = None /\ r ∈ V
  end.

(** * Reasoning about runs *)

Section Wp.
Context {S : Type}.

Lemma wp_elim {A} (m : M S A) s Q o s' : wp m s Q -> m s = (o, s') -> Q o s'.
Proof. unfold wp. intros H E. by rewrite E in H. Qed.

Lemma wp_intro {A} (m : M S A) s (Q : outcome A -> S -> Prop) :
  (forall o s', m s = (o, s') -> Q o s') -> wp m s Q.
Proof. unfold wp. intros H. apply H. by destruct (m s). Qed.

Lemma wp_conseq {A} (m : M S A) s (Q Q' : outcome A -> S -> Prop) :
  wp m s Q -> (forall o s', Q o s' -> Q' o s') -> wp m s Q'.
Proof. unfold wp. auto. Qed.

Lemma wp_ret {A} (a : A) (s : S) Q : Q (Ret a) s -> wp (ret a) s Q.
Proof. done. Qed.

Lemma wp_throw {A} e (s : S) (Q : outcome A -> S -> Prop) :
  Q (Throw e) s -> wp (throw e) s Q.
Proof. done. Qed.

Lemma wp_out_of_fuel {A} (s : S) (Q : outcome A -> S -> Prop) :
  Q OutOfFuel s -> wp out_of_fuel s Q.
Proof. done. Qed.

Lemma wp_bind {A B} (m : M S A) (k : A -> M S B) s Q :
  wp m s (fun o s' =>
            match o with
            | Ret a => wp (k a) s' Q
            | Throw e => Q (Throw e) s'
            | OutOfFuel => Q OutOfFuel s'
            end) ->
  wp (bind m k) s Q.
Proof. unfold wp, bind. by destruct (m s) as [[a|e|] s']. Qed.

Lemma wp_try_finally {A} (m : M S A) fin s Q :
  wp m s (fun o s' =>
            match o with
            | OutOfFuel => Q OutOfFuel s'
            | _ => Q o (fin s')
            end) ->
  wp (try_finally m fin) s Q.
Proof. unfold wp, try_finally. by destruct (m s) as [[a|e|] s']. Qed.

(** The loop over a fixed list, with an invariant on what is left. *)
Lemma wp_for_each {A B} (f : B -> A -> M S B)
    (I : list A -> B -> S -> Prop) (Q : outcome B -> S -> Prop) :
  (forall acc s, I [] acc s -> Q (Ret acc) s) ->
  (forall x l acc s, I (x :: l) acc s ->
     wp (f acc x) s (fun o s' =>
                       match o with
                       | Ret acc' => I l acc' s'
                       | Throw e => Q (Throw e) s'
                       | OutOfFuel => Q OutOfFuel s'
                       end)) ->
  forall l acc s, I l acc s -> wp (for_each f l acc) s Q.
Proof.
  intros Hexit Hstep l. induction l as [|x l IH]; intros acc s HI; simpl.
  - by apply wp_ret, Hexit.
  - apply wp_bind. eapply wp_conseq; [by apply Hstep|].
    intros [acc'|e|] s'; simpl; auto.
Qed.
End Wp.

Section Engine_rules.
Variable replacer : holder -> string -> value -> heap -> result * heap.
Variable call : fn -> heap -> receiver -> list value -> result.

Lemma wp_read {A} (f : heap -> A) st Q :
  Q (Ret (f (st_heap st))) st -> wp (read f) st Q.
Proof. done. Qed.

(** The array loop, with an invariant indexed by the fuel left. *)
Lemma wp_array_loop (body : nat -> M state resolved) (r : ref)
    (I : nat -> nat -> list resolved -> state -> Prop)
    (Q : outcome (list resolved) -> state -> Prop) :
  (forall i acc s, I 0 i acc s -> Q OutOfFuel s) ->
  (forall fuel i acc s, I (S fuel) i acc s ->
     ~ i < array_length (st_heap s) r -> Q (Ret acc) s) ->
  (forall fuel i acc s, I (S fuel) i acc s ->
     i < array_length (st_heap s) r ->
     wp (body i) s (fun o s' =>
                      match o with
                      | Ret t => I fuel (S i) (acc ++ [t]) s'
                      | Throw e => Q (Throw e) s'
                      | OutOfFuel => Q OutOfFuel s'
                      end)) ->
  forall fuel i acc s, I fuel i acc s -> wp (array_loop body fuel r i acc) s Q.
Proof.
  intros Hzero Hexit Hstep fuel.
  induction fuel as [|fuel IH]; intros i acc s HI; simpl.
  - apply wp_out_of_fuel. by eapply Hzero.
  - apply wp_bind, wp_read. case_bool_decide as Hlt.
    + apply wp_bind. eapply wp_conseq; [by eapply Hstep|].
      intros [t|e|] s'; simpl; auto.
    + apply wp_ret. by eapply Hexit.
Qed.

Lemma transform_unfold n path parent key val st :
  transform replacer call (S n) path parent key val st =
  transform_step replacer call n path parent key val st.
Proof.
  unfold transform_step. cbn [transform]. unfold bind.
  destruct (call_replacer replacer path parent key val st) as [[[]|?|] ?]; try done.
  unfold read. by destruct (lookup_toJSON _ _).
Qed.

Lemma wp_transform n path parent key val st Q :
  wp (transform_step replacer call n path parent key val) st Q ->
  wp (transform replacer call (S n) path parent key val) st Q.
Proof. unfold wp. by rewrite transform_unfold. Qed.

Lemma wp_call_replacer path parent key val st Q :
  (forall res h', replacer parent key val (st_heap st) = (res, h') ->
     let st' := {| st_heap := h'; visited := visited st;
                   calls := calls st ++ [Call path parent key val (visited st) res] |} in
     match res with
     | Ok v => Q (Ret v) st'
     | Err e => Q (Throw e) st'
     end) ->
  wp (call_replacer replacer path parent key val) st Q.
Proof.
  intros H. unfold wp, call_replacer.
  destruct (replacer parent key val (st_heap st)) as [res h'] eqn:E.
  specialize (H res h' eq_refl). by destruct res.
Qed.

Lemma wp_call_method f this args st Q :
  match call f (st_heap st) (OfStore this) args with
  | Ok v => Q (Ret v) st
  | Err e => Q (Throw e) st
  end ->
  wp (call_method call f this args) st Q.
Proof. unfold wp, call_method. by destruct (call f (st_heap st) (OfStore this) args). Qed.

(** Entering a container: the cycle check, then the children between
    [visited.add] and the [finally]. *)
Lemma wp_enter n path r st Q :
  (r ∈ visited st -> Q (Throw (TypeError msg_circular)) st) ->
  (r ∉ visited st ->
   wp (descend replacer call n path r)
      {| st_heap := st_heap st; visited := {[r]} ∪ visited st; calls := calls st |}
      (fun o s' =>
         match o with
         | OutOfFuel => Q OutOfFuel s'
         | _ => Q o (visited_delete r s')
         end)) ->
  wp (enter replacer call n path r) st Q.
Proof.
  intros Hin Hout. unfold enter. apply wp_bind. unfold wp at 1, visited_has; simpl.
  case_bool_decide; [by apply wp_throw, Hin|].
  apply wp_bind. unfold wp at 1, visited_add; simpl.
  by apply wp_try_finally, Hout.
Qed.
End Engine_rules.

(** ** What every run keeps

    The log only grows; a settled run leaves the ancestor set as it found
    it; and at each replacer call the ancestor set holds exactly the
    containers of the active path. *)

Section Engine_props.
Variable replacer : holder -> string -> value -> heap -> result * heap.
Variable call : fn -> heap -> receiver -> list value -> result.

Lemma log_inv_refl path st : log_inv path st st.
Proof. exists []. by rewrite app_nil_r. Qed.

Lemma log_inv_trans path path' st s s' :
  log_inv path st s ->
  (visited st = list_to_set path -> visited s = list_to_set path') ->
  log_inv path' s s' ->
  log_inv path st s'.
Proof.
  intros (new1 & Hc1 & Hp1) Hpath (new2 & Hc2 & Hp2).
  exists (new1 ++ new2). split.
  - by rewrite Hc2, Hc1, app_assoc.
  - intros HV. apply Forall_app. split; [by apply Hp1|]. apply Hp2. by apply Hpath.
Qed.

Lemma transform_trace fuel : forall path parent key val st,
  wp (transform replacer call fuel path parent key val) st (trace_post path st).
Proof.
  induction fuel as [|n IH]; intros path parent key val st.
  { apply wp_out_of_fuel. split; [done|apply log_inv_refl]. }
  apply wp_transform, wp_bind, wp_call_replacer.
  intros res h' _ st1.
  assert (Hlog : log_inv path st st1).
  { eexists; split; [done|]. intros HV. by repeat constructor. }
  assert (Hleaf : forall A (o : outcome A), trace_post path st o st1) by done.
  destruct res as [v|e]; [|by apply Hleaf].
  destruct v as [| | | | | | | |r]; try (by apply wp_ret, Hleaf); try (by apply wp_throw, Hleaf).
  apply wp_bind, wp_read. destruct (as_function _) as [f|].
  { apply wp_bind, wp_call_method. destruct (call _ _ _ _); [apply wp_ret|]; by apply Hleaf. }
  apply wp_enter; [intros _; by apply Hleaf|]. intros Hnotin.
  set (st2 := {| st_heap := st_heap st1; visited := {[r]} ∪ visited st1; calls := calls st1 |}).
  set (Inv := fun s : state => visited s = {[r]} ∪ visited st /\ log_inv path st s).
  set (Qloop := fun (A : Type) (o : outcome A) (s : state) =>
                  (settled o -> visited s = {[r]} ∪ visited st) /\ log_inv path st s).
  assert (Hst2 : Inv st2) by done.
  assert (HIQ : forall A (o : outcome A) s, Inv s -> Qloop A o s).
  { intros A o s [? ?]. by split. }
  assert (Hchild : forall key' val' s, Inv s ->
    wp (transform replacer call n (r :: path) (HObject r) key' val') s
       (fun o s' => match o with
                    | Ret _ => Inv s'
                    | _ => Qloop resolved o s'
                    end)).
  { intros key' val' s [HV Hl].
    eapply wp_conseq; [apply IH|]. intros o s' [Hv' Hl'].
    assert (log_inv path st s').
    { eapply log_inv_trans; [done| |done]. intros E. rewrite HV, E. done. }
    destruct o; split; try done.
    - rewrite Hv'; done.
    - intros _. rewrite Hv'; done. }
  assert (Hfin : forall (t : resolved) s, Inv s -> trace_post path st (Ret t) (visited_delete r s)).
  { intros t s [HV Hl]. split; [|done]. intros _. simpl. rewrite HV. set_solver. }
  assert (Hfin' : forall A (o : outcome A) s, Qloop A o s ->
     match o with OutOfFuel => trace_post path st (@OutOfFuel resolved) s
                | Ret _ => True
                | Throw e => trace_post path st (@Throw resolved e) (visited_delete r s) end).
  { intros A o s [HV Hl]. destruct o; [done| |done].
    split; [|done]. intros _. simpl. rewrite HV; [|done]. set_solver. }
  unfold descend. apply wp_bind, wp_read. destruct (is_array _ _).
  - apply wp_bind.
    eapply wp_conseq.
    { apply (wp_array_loop (array_body replacer call n path r) r (fun _ _ _ s => Inv s) (Qloop _)).
      - intros i acc s HI. by apply HIQ.
      - intros f i acc s HI _. by apply HIQ.
      - intros f i acc s HI _. unfold array_body. apply wp_bind, wp_read.
        eapply wp_conseq; [by apply Hchild|]. intros [] s'; done.
      - exact Hst2. }
    intros [items|e|] s' HQ; simpl.
    + apply wp_ret. apply Hfin. destruct HQ as [HV Hl]. split; [by apply HV|done].
    + exact (Hfin' _ (Throw e) _ HQ).
    + exact (Hfin' _ OutOfFuel _ HQ).
  - apply wp_bind, wp_read, wp_bind.
    eapply wp_conseq.
    { apply (wp_for_each (member_body replacer call n path r) (fun _ _ s => Inv s) (Qloop _)).
      - intros acc s HI. by apply HIQ.
      - intros k l acc s HI. unfold member_body. apply wp_bind, wp_read.
        destruct (has_own _ _ _); [|by apply wp_ret].
        apply wp_bind, wp_read, wp_bind.
        eapply wp_conseq; [by apply Hchild|]. intros [] s'; done.
      - exact Hst2. }
    intros [items|e|] s' HQ; simpl.
    + apply wp_ret. apply Hfin. destruct HQ as [HV Hl]. split; [by apply HV|done].
    + exact (Hfin' _ (Throw e) _ HQ).
    + exact (Hfin' _ OutOfFuel _ HQ).
Qed.
End Engine_props.

(** ** The scenarios of the test suite *)

Example scenario_simple_object :
  (asyncStringify identity no_functions 5 (VObject 0) NoSpace
     [plain [("name", VString "John"); ("age", num 30)]]).1
  = Ret (Some ("{" +:+ dquote +:+ "name" +:+ dquote +:+ ":" +:+ dquote +:+ "John" +:+ dquote
                 +:+ "," +:+ dquote +:+ "age" +:+ dquote +:+ ":30}")).
Proof. by vm_compute. Qed.

Example scenario_primitives :
  (asyncStringify identity no_functions 1 (VString "hello") NoSpace []).1
    = Ret (Some (dquote +:+ "hello" +:+ dquote)) /\
  (asyncStringify identity no_functions 1 (num 42) NoSpace []).1 = Ret (Some "42") /\
  (asyncStringify identity no_functions 1 (VBool true) NoSpace []).1 = Ret (Some "true") /\
  (asyncStringify identity no_functions 1 VNull NoSpace []).1 = Ret (Some "null") /\
  (asyncStringify identity no_functions 1 VUndefined NoSpace []).1 = Ret None.
Proof. repeat split; by vm_compute. Qed.

Example scenario_numeric_space :
  (asyncStringify identity no_functions 5 (VObject 0) (SpaceNumber 2)
     [plain [("name", VString "John"); ("age", num 30)]]).1
  = Ret (Some ("{" +:+ newline +:+ "  " +:+ dquote +:+ "name" +:+ dquote +:+ ": " +:+ dquote
                 +:+ "John" +:+ dquote +:+ "," +:+ newline +:+ "  " +:+ dquote +:+ "age"
                 +:+ dquote +:+ ": 30" +:+ newline +:+ "}")).
Proof. by vm_compute. Qed.

Example scenario_string_space :
  (asyncStringify identity no_functions 5 (VObject 0) (SpaceString (String "009"%char ""))
     [plain [("x", num 1); ("y", num 2)]]).1
  = Ret (Some ("{" +:+ newline +:+ String "009"%char "" +:+ dquote +:+ "x" +:+ dquote +:+ ": 1,"
                 +:+ newline +:+ String "009"%char "" +:+ dquote +:+ "y" +:+ dquote +:+ ": 2"
                 +:+ newline +:+ "}")).
Proof. by vm_compute. Qed.

Example scenario_nested_arrays :
  (asyncStringify identity no_functions 9 (VObject 0) NoSpace
     [array [Some (VObject 1); Some (VObject 2); Some (VObject 3)];
      array [Some (num 1); Some (num 2)];
      array [Some (num 3); Some (num 4)];
      array [Some (num 5); Some (num 6)]]).1
  = Ret (Some "[[1,2],[3,4],[5,6]]").
Proof. by vm_compute. Qed.

Example scenario_sparse_array :
  (asyncStringify identity no_functions 5 (VObject 0) NoSpace
     [array [Some (num 1); None; Some (num 3)]]).1
  = Ret (Some "[1,null,3]").
Proof. by vm_compute. Qed.

Example scenario_functions_omitted :
  (asyncStringify identity no_functions 5 (VObject 0) NoSpace
     [plain [("name", VString "test"); ("method", VFunction 0); ("value", num 42)]]).1
  = Ret (Some ("{" +:+ dquote +:+ "name" +:+ dquote +:+ ":" +:+ dquote +:+ "test" +:+ dquote
                 +:+ "," +:+ dquote +:+ "value" +:+ dquote +:+ ":42}")).
Proof. by vm_compute. Qed.

Example scenario_date :
  (asyncStringify identity date_hook 5 (VObject 0) NoSpace
     [plain [("timestamp", VObject 1)]; Object (VFunction 0) (Props [])]).1
  = Ret (Some ("{" +:+ dquote +:+ "timestamp" +:+ dquote +:+ ":" +:+ dquote
                 +:+ "2024-01-01T00:00:00.000Z" +:+ dquote +:+ "}")).
Proof. by vm_compute. Qed.

Example scenario_primitive_to_object :
  (asyncStringify expand_name no_functions 3 (VObject 0) NoSpace
     [plain [("name", VString "John")]]).1
  = Ret (Some ("{" +:+ dquote +:+ "name" +:+ dquote +:+ ":{" +:+ dquote +:+ "first" +:+ dquote
                 +:+ ":" +:+ dquote +:+ "John" +:+ dquote +:+ "," +:+ dquote +:+ "last"
                 +:+ dquote +:+ ":" +:+ dquote +:+ "Doe" +:+ dquote +:+ "}}")).
Proof. by vm_compute. Qed.

Example scenario_circular_object :
  (asyncStringify identity no_functions 9 (VObject 0) NoSpace
     [plain [("name", VString "test"); ("circular", VObject 0)]]).1
  = Throw (TypeError msg_circular).
Proof. by vm_compute. Qed.

Example scenario_circular_array :
  (asyncStringify identity no_functions 9 (VObject 0) NoSpace
     [array [Some (num 1); Some (num 2); Some (VObject 0)]]).1
  = Throw (TypeError msg_circular).
Proof. by vm_compute. Qed.

Example scenario_circular_nested :
  (asyncStringify identity no_functions 9 (VObject 0) NoSpace deep_cycle_heap).1
  = Throw (TypeError msg_circular).
Proof. by vm_compute. Qed.

Example scenario_bigint :
  (asyncStringify identity no_functions 9 (VObject 0) NoSpace bigint_heap).1
  = Throw (TypeError msg_bigint).
Proof. by vm_compute. Qed.

(** * The claims *)





(** ** BigInt results *)

Section Bigint.
Variable replacer : holder -> string -> value -> heap -> result * heap.
Variable call : fn -> heap -> receiver -> list value -> result.

Lemma bigint_post_step {A B} st s s' (o : outcome A) (o' : outcome B) :
  bigint_post st o s -> o <> Throw (TypeError msg_bigint) ->
  bigint_post s o' s' -> bigint_post st o' s'.
Proof.
  intros (new & Hc & Hb) Hne (new' & Hc' & Hb').
  exists (new ++ new'). split; [by rewrite Hc', Hc, app_assoc|].
  intros [H|H]%Exists_app; [by destruct Hne; apply Hb|by apply Hb'].
Qed.

Lemma transform_bigint fuel : forall path parent key val st,
  wp (transform replacer call fuel path parent key val) st (bigint_post st).
Proof.
  induction fuel as [|n IH]; intros path parent key val st.
  { apply wp_out_of_fuel. exists []. split; [by rewrite app_nil_r|]. by intros ?%Exists_nil. }
  apply wp_transform, wp_bind, wp_call_replacer.
  intros res h' _ st1.
  assert (Hleaf : forall A (o : outcome A),
            (forall z, res = Ok (VBigInt z) -> o = Throw (TypeError msg_bigint)) ->
            bigint_post st o st1).
  { intros A o Ho. eexists; split; [done|].
    intros [[z Hz]|[]%Exists_nil]%Exists_cons. by eapply Ho. }
  destruct res as [v|e]; [|by apply Hleaf].
  destruct v as [| | | | | | | |r]; try (by apply wp_ret, Hleaf); try (by apply wp_throw, Hleaf).
  apply wp_bind, wp_read. destruct (as_function _) as [f|].
  { apply wp_bind, wp_call_method. destruct (call _ _ _ _); [apply wp_ret|]; by apply Hleaf. }
  apply wp_enter; [intros _; by apply Hleaf|]. intros Hnotin.
  set (st2 := {| st_heap := st_heap st1; visited := {[r]} ∪ visited st1; calls := calls st1 |}).
  set (Inv := fun s : state => bigint_post st (Ret tt) s).
  assert (Hst2 : Inv st2) by (by apply Hleaf).
  assert (Hchild : forall p k v s, Inv s ->
    wp (transform replacer call n (r :: path) p k v) s
       (fun o s' => match o with
                    | Ret _ => Inv s'
                    | Throw e => forall A, bigint_post st (@Throw A e) s'
                    | OutOfFuel => forall A, bigint_post st (@OutOfFuel A) s'
                    end)).
  { intros p k v s HI. eapply wp_conseq; [apply IH|]. intros o s' Hpost.
    destruct o as [t|e|].
    - eapply bigint_post_step; [exact HI|done|].
      destruct Hpost as (new & Hc0 & Hb). exists new. split; [done|]. intros Hex. by apply Hb in Hex.
    - intros A. eapply bigint_post_step; [exact HI|done|].
      destruct Hpost as (new & Hc0 & Hb). exists new. split; [done|]. intros Hex. apply Hb in Hex. congruence.
    - intros A. eapply bigint_post_step; [exact HI|done|].
      destruct Hpost as (new & Hc0 & Hb). exists new. split; [done|]. intros Hex. by apply Hb in Hex. }
  assert (Hany : forall A (o : outcome A) s, Inv s -> bigint_post st o s).
  { intros A o s (new & Hc0 & Hb). exists new. split; [done|]. intros Hex. by apply Hb in Hex. }
  assert (Hfin : forall A (o : outcome A) (s : state), bigint_post st o s ->
     match o with
     | Ret _ => forall t : resolved, bigint_post st (Ret t) (visited_delete r s)
     | Throw e => bigint_post st (@Throw resolved e) (visited_delete r s)
     | OutOfFuel => bigint_post st (@OutOfFuel resolved) s
     end).
  { intros A o s (new & Hc & Hb). destruct o; [intros t| |]; exists new; (split; [done|]);
      intros Hex; apply Hb in Hex; congruence. }
  unfold descend. apply wp_bind, wp_read. destruct (is_array _ _).
  - apply wp_bind. eapply wp_conseq.
    { apply (wp_array_loop (array_body replacer call n path r) r (fun _ _ _ s => Inv s) (bigint_post st)).
      - intros i acc s HI. by apply Hany.
      - intros f i acc s HI _. by apply Hany.
      - intros f i acc s HI _. unfold array_body. apply wp_bind, wp_read.
        eapply wp_conseq; [by apply Hchild|]. intros [] s'; auto.
      - exact Hst2. }
    intros [items|e|] s' HQ; simpl.
    + apply wp_ret. exact (Hfin _ (Ret items) _ HQ _).
    + exact (Hfin _ (Throw e) _ HQ).
    + exact (Hfin _ OutOfFuel _ HQ).
  - apply wp_bind, wp_read, wp_bind. eapply wp_conseq.
    { apply (wp_for_each (member_body replacer call n path r) (fun _ _ s => Inv s) (bigint_post st)).
      - intros acc s HI. by apply Hany.
      - intros k l acc s HI. unfold member_body. apply wp_bind, wp_read.
        destruct (has_own _ _ _); [|by apply wp_ret].
        apply wp_bind, wp_read, wp_bind.
        eapply wp_conseq; [by apply Hchild|]. intros [] s'; auto.
      - exact Hst2. }
    intros [items|e|] s' HQ; simpl.
    + apply wp_ret. exact (Hfin _ (Ret items) _ HQ _).
    + exact (Hfin _ (Throw e) _ HQ).
    + exact (Hfin _ OutOfFuel _ HQ).
Qed.
End Bigint.


(** C3: whenever some replacer call of a top-level call, at the root or at
    any depth, returns a BigInt, the top-level call fails with the TypeError
    whose message names the BigInt. *)
Theorem bigint_result_is_rejected replacer call fuel value space h c z :
  c ∈ calls (asyncStringify replacer call fuel value space h).2 ->
  c_result c = Ok (VBigInt z) ->
  (asyncStringify replacer call fuel value space h).1 = Throw (TypeError msg_bigint).
Proof.
  unfold asyncStringify, bind.
  pose proof (transform_bigint replacer call fuel [] (HRoot value) "" value (initial h)) as Hwp.
  unfold wp, initial in Hwp.
  destruct (transform replacer call fuel [] (HRoot value) "" value _) as [o st'].
  destruct Hwp as (new & Hc & Hb). simpl in Hc.
  assert (Hin : c ∈ calls st' -> c_result c = Ok (VBigInt z) -> o = Throw (TypeError msg_bigint)).
  { intros Hin Hres. apply Hb. rewrite Hc in Hin. apply Exists_exists. exists c.
    split; [done|]. by exists z. }
  destruct o as [t|e|]; simpl; intros H1 H2; specialize (Hin H1 H2); congruence.
Qed.

Lemma bigint_result_is_rejected_witness :
  Call [0] (HObject 0) "big" (VBigInt 123) {[0]} (Ok (VBigInt 123))
    ∈ calls (asyncStringify identity no_functions 2 (VObject 0) NoSpace bigint_heap).2 /\
  c_result (Call [0] (HObject 0) "big" (VBigInt 123) {[0]} (Ok (VBigInt 123)))
    = Ok (VBigInt 123) /\
  (asyncStringify identity no_functions 2 (VObject 0) NoSpace bigint_heap).1
    = Throw (TypeError msg_bigint).
Proof.
  assert (Hin : Call [0] (HObject 0) "big" (VBigInt 123) {[0]} (Ok (VBigInt 123))
    ∈ calls (asyncStringify identity no_functions 2 (VObject 0) NoSpace bigint_heap).2).
  { apply list_elem_of_In. right. left. reflexivity. }
  split; [exact Hin|]. split; [reflexivity|].
  exact (bigint_result_is_rejected identity no_functions 2 (VObject 0) NoSpace bigint_heap
           _ 123%Z Hin eq_refl).
Defined.


(** ** The shape of the log *)

Section Shape.
Variable replacer : holder -> string -> value -> heap -> result * heap.
Variable call : fn -> heap -> receiver -> list value -> result.

Lemma deeper_cons r p c : deeper (r :: p) c -> deeper p c.
Proof.
  intros (q & Hq & E). exists (q ++ [r]). split.
  - by destruct q.
  - by rewrite E, <- app_assoc.
Qed.

Lemma deeper_head r p c : c_path c = r :: p -> deeper p c.
Proof. intros E. exists [r]. by rewrite E. Qed.

Lemma transform_block fuel : forall path parent key val st,
  wp (transform replacer call fuel path parent key val) st
     (block_post replacer fuel path parent key val st).
Proof.
  induction fuel as [|n IH]; intros path parent key val st.
  { by apply wp_out_of_fuel. }
  apply wp_transform, wp_bind, wp_call_replacer.
  intros res h' Hrep st1.
  assert (Hh : pure_replacer replacer -> h' = st_heap st).
  { intros Hp. specialize (Hp parent key val (st_heap st)). by rewrite Hrep in Hp. }
  set (Inv := fun s : state =>
    (pure_replacer replacer -> st_heap s = st_heap st) /\
    exists rest, calls s = calls st1 ++ rest /\ Forall (deeper path) rest).
  assert (Hblock : forall o s, Inv s -> block_post replacer (S n) path parent key val st o s).
  { intros o s [Hp (rest & Hc & Hd)]. split; [done|]. exists rest. rewrite Hrep. simpl.
    split; [|done]. rewrite Hc. simpl. by rewrite <- app_assoc. }
  assert (Hst1 : Inv st1).
  { split; [done|]. exists []. by rewrite app_nil_r. }
  destruct res as [v|e]; [|by apply Hblock].
  destruct v as [| | | | | | | |r]; try (by apply wp_ret, Hblock); try (by apply wp_throw, Hblock).
  apply wp_bind, wp_read. destruct (as_function _) as [f|].
  { apply wp_bind, wp_call_method. destruct (call _ _ _ _); [apply wp_ret|]; by apply Hblock. }
  apply wp_enter; [intros _; by apply Hblock|]. intros Hnotin.
  assert (Hchild : forall k v s, Inv s ->
    wp (transform replacer call n (r :: path) (HObject r) k v) s (fun _ s' => Inv s')).
  { intros k v s [Hp (rest & Hc & Hd)]. eapply wp_conseq; [apply IH|].
    intros o s' [Hp' Hshape]. split; [intros; rewrite Hp'; auto|].
    destruct n as [|n].
    - exists rest. destruct Hshape as [Hshape _]. by rewrite Hshape.
    - destruct Hshape as (rest' & Hc' & Hd').
      eexists (rest ++ _ :: rest'). split; [by rewrite Hc', Hc, <- app_assoc|].
      apply Forall_app. split; [done|]. constructor.
      + by eapply deeper_head.
      + eapply Forall_impl; [exact Hd'|]. apply deeper_cons. }
  assert (Hdel : forall s, Inv s -> Inv (visited_delete r s)) by done.
  unfold descend. apply wp_bind, wp_read. destruct (is_array _ _).
  - apply wp_bind. eapply wp_conseq.
    { apply (wp_array_loop (array_body replacer call n path r) r
               (fun _ _ _ s => Inv s) (fun _ s => Inv s)); [done|done| |exact Hst1].
      intros f i acc s HI _. unfold array_body. apply wp_bind, wp_read.
      eapply wp_conseq; [by apply Hchild|]. by intros [] s'. }
    intros [items|e|] s' HQ; simpl; [apply wp_ret| |]; by apply Hblock.
  - apply wp_bind, wp_read, wp_bind. eapply wp_conseq.
    { apply (wp_for_each (member_body replacer call n path r)
               (fun _ _ s => Inv s) (fun _ s => Inv s)); [done| |exact Hst1].
      intros k l acc s HI. unfold member_body. apply wp_bind, wp_read.
      destruct (has_own _ _ _); [|by apply wp_ret].
      apply wp_bind, wp_read, wp_bind.
      eapply wp_conseq; [by apply Hchild|]. by intros [] s'. }
    intros [items|e|] s' HQ; simpl; [apply wp_ret| |]; by apply Hblock.
Qed.

Lemma sibling_blocks_snoc p this kvs tr k v c sub :
  sibling_blocks p this kvs tr ->
  c_path c = p -> c_this c = this -> c_key c = k -> c_val c = v ->
  Forall (deeper p) sub ->
  sibling_blocks p this (kvs ++ [(k, v)]) (tr ++ c :: sub).
Proof.
  intros Hb Hp Ht Hk Hv Hd. induction Hb as [|k' v' kvs c' sub' rest ? ? ? ? ? ? IH]; simpl.
  - rewrite <- (app_nil_r sub). by constructor; [..|constructor].
  - rewrite <- app_assoc. by constructor.
Qed.

Lemma has_own_own_keys h r k : k ∈ own_keys h r -> has_own h r k = true.
Proof.
  unfold own_keys, has_own. destruct (lookup_body h r) as [[l|ps]|]; try by intros ?%elem_of_nil.
  rewrite elem_of_remove_dups. intros Hin. apply bool_decide_eq_true.
  induction ps as [|[k' v] ps IH]; simpl in *; [by apply elem_of_nil in Hin|].
  case_bool_decide; [by eexists|]. apply IH. apply elem_of_cons in Hin as [?|?]; [congruence|done].
Qed.

(** One child: its block is appended to the blocks so far. *)
Lemma child_block n path r k v st kvs tr s :
  calls s = calls st ++ tr ->
  sibling_blocks (r :: path) (HObject r) kvs tr ->
  wp (transform replacer call n (r :: path) (HObject r) k v) s
     (fun o s' =>
        (pure_replacer replacer -> st_heap s' = st_heap s) /\
        match o with
        | Ret _ =>
            exists tr', calls s' = calls st ++ tr' /\
              sibling_blocks (r :: path) (HObject r) (kvs ++ [(k, v)]) tr'
        | _ =>
            exists kvs' tr', calls s' = calls st ++ tr' /\
              sibling_blocks (r :: path) (HObject r) kvs' tr' /\
              (kvs' = kvs \/ kvs' = kvs ++ [(k, v)])
        end).
Proof.
  intros Hc Hb. eapply wp_conseq; [apply transform_block|].
  intros o s' [Hp Hshape]. split; [done|]. destruct n as [|n].
  - destruct Hshape as [Hc' ->]. exists kvs, tr. rewrite Hc'. auto.
  - destruct Hshape as (rest & Hc' & Hd).
    assert (Hsn : sibling_blocks (r :: path) (HObject r) (kvs ++ [(k, v)])
                    (tr ++ Call (r :: path) (HObject r) k v (visited s)
                                (replacer (HObject r) k v (st_heap s)).1 :: rest)).
    { by apply sibling_blocks_snoc. }
    assert (Hc'' : calls s' = calls st ++ tr ++
                     Call (r :: path) (HObject r) k v (visited s)
                          (replacer (HObject r) k v (st_heap s)).1 :: rest).
    { by rewrite Hc', Hc, <- app_assoc. }
    destruct o; eauto 10.
Qed.

Lemma descend_blocks n path r st :
  wp (descend replacer call n path r) st (blocks_post replacer path r st).
Proof.
  unfold descend. apply wp_bind, wp_read.
  destruct (is_array (st_heap st) r) eqn:Harr.
  - (* arrays *)
    set (h0 := st_heap st).
    set (kv := fun i : nat => (pretty i, array_get h0 r i)).
    set (Inv := fun (_ i : nat) (_ : list resolved) (s : state) =>
      exists kvs tr, calls s = calls st ++ tr /\
        sibling_blocks (r :: path) (HObject r) kvs tr /\
        kvs.*1 = pretty <$> seq 0 i /\
        (pure_replacer replacer ->
           st_heap s = h0 /\ i <= array_length h0 r /\ kvs = kv <$> seq 0 i)).
    set (Q := fun (o : outcome (list resolved)) (s : state) =>
      exists kvs tr, calls s = calls st ++ tr /\
        sibling_blocks (r :: path) (HObject r) kvs tr /\
        kvs.*1 = pretty <$> seq 0 (length kvs) /\
        (pure_replacer replacer ->
           st_heap s = h0 /\
           ((exists t, o = Ret t) -> kvs = kv <$> seq 0 (array_length h0 r)))).
    assert (Hlen : forall (kvs : list (string * value)) i,
              kvs.*1 = pretty <$> seq 0 i -> length kvs = i).
    { intros kvs i E. apply (f_equal length) in E.
      by rewrite !length_fmap, length_seq in E. }
    assert (HIQ : forall f i acc s o, Inv f i acc s -> (forall t, o <> Ret t) -> Q o s).
    { intros f i acc s o (kvs & tr & Hc & Hb & Hk & Hp) Ho. exists kvs, tr.
      rewrite (Hlen _ _ Hk). repeat split; try done; [by apply Hp|].
      intros [t ->]. by destruct (Ho t). }
    apply wp_bind. eapply wp_conseq.
    { apply (wp_array_loop (array_body replacer call n path r) r Inv Q).
      - intros i acc s HI. by eapply HIQ.
      - intros f i acc s (kvs & tr & Hc & Hb & Hk & Hp) Hexit. exists kvs, tr.
        rewrite (Hlen _ _ Hk). repeat split; try done; [by apply Hp|].
        intros _. destruct (Hp H) as (Hh & Hle & ->). rewrite Hh in Hexit.
        f_equal. f_equal. lia.
      - intros f i acc s (kvs & tr & Hc & Hb & Hk & Hp) Hlt.
        unfold array_body. apply wp_bind, wp_read.
        eapply wp_conseq; [by eapply child_block|]. simpl.
        intros o s' [Hh Hpost].
        assert (Hk' : (kvs ++ [(pretty i, array_get (st_heap s) r i)]).*1
                      = pretty <$> seq 0 (S i)).
        { rewrite fmap_app, Hk, seq_S, fmap_app. done. }
        assert (Hfail : forall o' : outcome (list resolved), (forall t, o' <> Ret t) ->
                  (exists kvs' tr', calls s' = calls st ++ tr' /\
                     sibling_blocks (r :: path) (HObject r) kvs' tr' /\
                     (kvs' = kvs \/ kvs' = kvs ++ [(pretty i, array_get (st_heap s) r i)])) ->
                  Q o' s').
        { intros o' Ho (kvs' & tr' & Hc' & Hb' & Hor). exists kvs', tr'.
          split; [done|]. split; [done|]. split.
          - destruct Hor as [-> | ->]; [by rewrite (Hlen _ _ Hk)|by rewrite (Hlen _ _ Hk')].
          - intros Hpure. split; [|intros [t ->]; by destruct (Ho t)].
            rewrite Hh by done. by apply Hp. }
        destruct o as [t|e|]; [|by apply Hfail|by apply Hfail].
        destruct Hpost as (tr' & Hc' & Hb'). eexists _, tr'.
        split; [done|]. split; [done|]. split; [done|].
        intros Hpure. destruct (Hp Hpure) as (Hh0 & Hle & ->).
        rewrite Hh by done. split; [done|]. rewrite Hh0 in Hlt |- *.
        split; [lia|]. by rewrite seq_S, fmap_app.
      - exists [], []. rewrite app_nil_r. repeat split; try done; [constructor|lia]. }
    intros o s' (kvs & tr & Hc & Hb & Hk & Hp).
    assert (Hpost : forall o' : outcome resolved, (is_Some (match o' with Ret _ => Some tt | _ => None end) -> exists t, o = Ret t) ->
              blocks_post replacer path r st o' s').
    { intros o' Ho. exists kvs, tr. split; [done|]. split; [done|].
      split; [unfold order_ok; by rewrite Harr, ?length_fmap|].
      intros Hpure. destruct (Hp Hpure) as [Hh Hfull]. split; [done|].
      intros [t ->]. unfold children_kv. rewrite Harr. apply Hfull, Ho. by eexists. }
    destruct o as [items|e|]; simpl; [apply wp_ret| |]; apply Hpost; eauto;
      by intros [? [=]].
  - (* keyed containers *)
    apply wp_bind, wp_read.
    set (h0 := st_heap st). set (ks := own_keys h0 r).
    set (kv := fun k : string => (k, get_prop h0 r k)).
    set (Inv := fun (l : list string) (_ : list (string * resolved)) (s : state) =>
      exists pre kvs tr, ks = pre ++ l /\ calls s = calls st ++ tr /\
        sibling_blocks (r :: path) (HObject r) kvs tr /\
        sublist kvs.*1 pre /\
        (pure_replacer replacer -> st_heap s = h0 /\ kvs = kv <$> pre)).
    set (Q := fun (o : outcome (list (string * resolved))) (s : state) =>
      exists kvs tr, calls s = calls st ++ tr /\
        sibling_blocks (r :: path) (HObject r) kvs tr /\
        sublist kvs.*1 ks /\
        (pure_replacer replacer ->
           st_heap s = h0 /\ ((exists t, o = Ret t) -> kvs = kv <$> ks))).
    apply wp_bind. eapply wp_conseq.
    { apply (wp_for_each (member_body replacer call n path r) Inv Q).
      - intros acc s (pre & kvs & tr & Hks & Hc & Hb & Hsub & Hp).
        rewrite app_nil_r in Hks. subst pre. exists kvs, tr. repeat split; try done.
        + by apply Hp.
        + intros _. by apply Hp.
      - intros k l acc s (pre & kvs & tr & Hks & Hc & Hb & Hsub & Hp).
        assert (Hks' : ks = (pre ++ [k]) ++ l) by (by rewrite <- app_assoc).
        unfold member_body. apply wp_bind, wp_read.
        destruct (has_own (st_heap s) r k) eqn:Hown.
        + apply wp_bind, wp_read, wp_bind.
          eapply wp_conseq; [by eapply child_block|]. simpl.
          intros o s' [Hh Hpost].
          assert (Hfail : forall o' : outcome (list (string * resolved)), (forall t, o' <> Ret t) ->
                    (exists kvs' tr', calls s' = calls st ++ tr' /\
                       sibling_blocks (r :: path) (HObject r) kvs' tr' /\
                       (kvs' = kvs \/ kvs' = kvs ++ [(k, get_prop (st_heap s) r k)])) ->
                    Q o' s').
          { intros o' Ho (kvs' & tr' & Hc' & Hb' & Hor). exists kvs', tr'.
            split; [done|]. split; [done|]. split.
            - destruct Hor as [-> | ->].
              + rewrite Hks. by apply sublist_inserts_r.
              + rewrite fmap_app. simpl. rewrite Hks'. apply sublist_inserts_r.
                by apply sublist_app.
            - intros Hpure. split; [|intros [t ->]; by destruct (Ho t)].
              rewrite Hh by done. by apply Hp. }
          destruct o as [t|e|]; [|by apply Hfail|by apply Hfail].
          apply wp_ret. destruct Hpost as (tr' & Hc' & Hb').
          exists (pre ++ [k]), (kvs ++ [(k, get_prop (st_heap s) r k)]), tr'.
          split; [done|]. split; [done|]. split; [done|]. split.
          * rewrite fmap_app. by apply sublist_app.
          * intros Hpure. destruct (Hp Hpure) as [Hh0 ->]. rewrite Hh by done.
            split; [done|]. by rewrite Hh0, fmap_app.
        + apply wp_ret. exists (pre ++ [k]), kvs, tr. repeat split; try done.
          * by apply sublist_inserts_r.
          * by apply Hp.
          * exfalso. destruct (Hp H) as [Hh0 _]. rewrite Hh0 in Hown.
            rewrite has_own_own_keys in Hown; [done|].
            fold ks. rewrite Hks. set_solver.
      - exists [], [], []. rewrite app_nil_r. repeat split; try done; constructor. }
    intros o s' (kvs & tr & Hc & Hb & Hsub & Hp).
    assert (Hpost : forall o' : outcome resolved, (is_Some (match o' with Ret _ => Some tt | _ => None end) -> exists t, o = Ret t) ->
              blocks_post replacer path r st o' s').
    { intros o' Ho. exists kvs, tr. split; [done|]. split; [done|].
      split; [unfold order_ok; by rewrite Harr, ?length_fmap|].
      intros Hpure. destruct (Hp Hpure) as [Hh Hfull]. split; [done|].
      intros [t ->]. unfold children_kv. rewrite Harr. apply Hfull, Ho. by eexists. }
    destruct o as [items|e|]; simpl; [apply wp_ret| |]; apply Hpost; eauto;
      by intros [? [=]].
Qed.
End Shape.


Lemma identity_pure : pure_replacer identity.
Proof. done. Qed.



(** C9: the top-level call makes the first replacer call on the root, with
    the empty key and the synthetic single-entry container as context, and
    it is the only call at the root: all others are made below it.  When the
    root resolves to undefined or to a function, the call resolves to
    undefined. *)
Theorem root_call_and_undefined_result replacer call n value space h :
  (exists rest,
     calls (asyncStringify replacer call (S n) value space h).2 =
       Call [] (HRoot value) "" value ∅ (replacer (HRoot value) "" value h).1 :: rest /\
     Forall (fun c => c_path c <> []) rest) /\
  (forall t,
     (transform replacer call (S n) [] (HRoot value) "" value (initial h)).1 = Ret t ->
     t = RVal VUndefined \/ (exists f, t = RVal (VFunction f)) ->
     (asyncStringify replacer call (S n) value space h).1 = Ret None).
Proof.
  unfold asyncStringify, bind. fold (initial h).
  pose proof (transform_block replacer call (S n) [] (HRoot value) "" value (initial h)) as Hb.
  unfold wp in Hb.
  destruct (transform replacer call (S n) [] (HRoot value) "" value (initial h)) as [o st'].
  destruct Hb as [_ (rest & Hc & Hd)]. simpl in *. split.
  - exists rest. split.
    + by destruct o.
    + eapply Forall_impl; [exact Hd|]. intros c (q & Hq & E). rewrite E, app_nil_r. done.
  - intros t -> [-> | [f ->]]; reflexivity.
Qed.

Lemma root_call_and_undefined_result_witness :
  (transform identity no_functions 1 [] (HRoot VUndefined) "" VUndefined (initial [])).1
    = Ret (RVal VUndefined) /\
  (RVal VUndefined = RVal VUndefined \/ (exists f, RVal VUndefined = RVal (VFunction f))) /\
  (asyncStringify identity no_functions 1 VUndefined NoSpace []).1 = Ret None.
Proof.
  split; [reflexivity|]. split; [by left|].
  apply (proj2 (root_call_and_undefined_result identity no_functions 0 VUndefined NoSpace [])
           (RVal VUndefined)); [reflexivity|by left].
Defined.


(** ** Rendering the resolved tree *)

Section Rendering.
Variable call : fn -> heap -> receiver -> list value -> result.
Variable h : heap.

Lemma render_elided fuel key t :
  elided t = true -> resolved_to_json call h (S fuel) key t = Ret None.
Proof. by destruct t as [[]| |]. Qed.

Lemma render_members_filter fuel ps : forall acc,
  render_members (resolved_to_json call h (S fuel)) ps acc =
  render_members (resolved_to_json call h (S fuel)) (List.filter kept_member ps) acc.
Proof.
  induction ps as [|[k t] ps IH]; intros acc; [done|].
  cbn [List.filter]. unfold kept_member at 1. cbn [snd].
  destruct (elided t) eqn:E; cbn [negb render_members].
  - rewrite render_elided by done. cbn [obind push_member]. apply IH.
  - destruct (resolved_to_json call h (S fuel) k t); cbn [obind]; [apply IH|done|done].
Qed.

Lemma render_elements_nullify fuel ts : forall i acc,
  render_elements (resolved_to_json call h (S fuel)) i ts acc =
  render_elements (resolved_to_json call h (S fuel)) i (nullify <$> ts) acc.
Proof.
  induction ts as [|t ts IH]; intros i acc; [done|].
  cbn [fmap list_fmap render_elements]. unfold nullify at 1.
  destruct (elided t) eqn:E.
  - rewrite render_elided by done. cbn [obind]. apply IH.
  - destruct (resolved_to_json call h (S fuel) (pretty i) t); cbn [obind]; [apply IH|done|done].
Qed.

Lemma render_elements_length render ts : forall i acc js,
  render_elements render i ts acc = Ret js -> length js = length acc + length ts.
Proof.
  induction ts as [|t ts IH]; intros i acc js; cbn [render_elements].
  - intros [= <-]. simpl. lia.
  - destruct (render (pretty i) t) as [j| |]; cbn [obind]; [|done|done].
    intros Hgo. apply IH in Hgo. unfold push_element in Hgo. rewrite length_app in Hgo.
    simpl in *. lia.
Qed.
End Rendering.

Lemma record_hook_filter ps : record_hook (List.filter kept_member ps) = None.
Proof.
  unfold record_hook. induction ps as [|[k t] ps IH]; [done|].
  cbn [List.filter]. unfold kept_member at 1. cbn [snd].
  destruct (elided t) eqn:E; cbn [negb]; [done|]. cbn [assoc].
  case_bool_decide; [|done]. by destruct t as [[]| |].
Qed.




Section Array_slots.
Variable replacer : holder -> string -> value -> heap -> result * heap.
Variable call : fn -> heap -> receiver -> list value -> result.

Lemma descend_array_length n path r st :
  is_array (st_heap st) r = true ->
  wp (descend replacer call n path r) st
     (fun o st' =>
        forall t, o = Ret t ->
          exists ts, t = RArr ts /\
            array_length (st_heap st') r <= length ts /\
            (pure_replacer replacer -> length ts = array_length (st_heap st) r)).
Proof.
  intros Harr. unfold descend. apply wp_bind, wp_read. rewrite Harr.
  set (h0 := st_heap st).
  apply wp_bind. eapply wp_conseq.
  { apply (wp_array_loop (array_body replacer call n path r) r
             (fun _ i acc s =>
                length acc = i /\
                (pure_replacer replacer -> st_heap s = h0 /\ i <= array_length h0 r))
             (fun o s =>
                forall ts, o = Ret ts ->
                  array_length (st_heap s) r <= length ts /\
                  (pure_replacer replacer -> length ts = array_length h0 r))).
    - done.
    - intros f i acc s (Hl & Hp) Hexit ts [= <-]. split; [lia|].
      intros Hpure. destruct (Hp Hpure) as [Hh Hle]. rewrite Hh in Hexit. lia.
    - intros f i acc s (Hl & Hp) Hlt. unfold array_body. apply wp_bind, wp_read.
      eapply wp_conseq; [apply transform_block|].
      intros o s' [Hh' _]. destruct o; [|done|done].
      split; [rewrite length_app; simpl; lia|].
      intros Hpure. destruct (Hp Hpure) as [Hh Hle].
      rewrite Hh' by done. rewrite Hh in Hlt. split; [done|lia].
    - split; [done|]. intros _. split; [done|lia]. }
  intros [ts|e|] s' HQ; [|done|done].
  apply wp_ret. intros t [= <-]. exists ts. split; [done|]. by apply HQ.
Qed.
End Array_slots.




(** ** Termination over a store that the replacer leaves alone *)

Lemma unvisited_add h V r :
  r < length h -> r ∉ V -> unvisited h ({[r]} ∪ V) < unvisited h V.
Proof.
  intros Hlt Hnot. unfold unvisited. apply subset_size.
  apply strict_spec_alt. split; [set_solver|].
  intros Heq. assert (Hin : r ∈ (set_seq 0 (length h) ∖ V : gset ref)).
  { apply elem_of_difference. split; [|done]. apply elem_of_set_seq. lia. }
  rewrite <- Heq in Hin. set_solver.
Qed.

Lemma unvisited_le h V : unvisited h V <= length h.
Proof.
  unfold unvisited.
  pose proof (subseteq_size (set_seq 0 (length h) ∖ V) (set_seq 0 (length h) : gset ref)) as Hsz.
  rewrite size_set_seq in Hsz. apply Hsz. set_solver.
Qed.

Lemma array_length_width h r : array_length h r <= width h.
Proof.
  unfold array_length, lookup_body, width.
  destruct (h !! r) as [o|] eqn:E; simpl; [|lia].
  destruct (o_body o) as [l|ps] eqn:Eb; [|lia].
  apply max_list_elem_of_le. apply list_elem_of_fmap. exists o.
  split; [by rewrite Eb|]. by eapply list_elem_of_lookup_2.
Qed.

Lemma dangling_is_array h r : length h <= r -> is_array h r = false.
Proof. intros H. unfold is_array, lookup_body. by rewrite lookup_ge_None_2. Qed.

Lemma dangling_own_keys h r : length h <= r -> own_keys h r = [].
Proof. intros H. unfold own_keys, lookup_body. by rewrite lookup_ge_None_2. Qed.

Section Termination.
Variable replacer : holder -> string -> value -> heap -> result * heap.
Variable call : fn -> heap -> receiver -> list value -> result.
Hypothesis Hpure : pure_replacer replacer.

Lemma transform_total fuel : forall m path parent key val st,
  unvisited (st_heap st) (visited st) <= m ->
  m + width (st_heap st) + 2 <= fuel ->
  wp (transform replacer call fuel path parent key val) st (total_post st).
Proof.
  induction fuel as [|n IH]; intros m path parent key val st Hm Hfuel; [lia|].
  apply wp_transform, wp_bind, wp_call_replacer.
  intros res h' Hrep st1.
  assert (Hh : h' = st_heap st).
  { specialize (Hpure parent key val (st_heap st)). by rewrite Hrep in Hpure. }
  subst h'.
  assert (Hleaf : forall A (o : outcome A), settled o -> total_post st o st1) by done.
  destruct res as [v|e]; [|by apply Hleaf].
  destruct v as [| | | | | | | |r]; try (by apply wp_ret, Hleaf); try (by apply wp_throw, Hleaf).
  apply wp_bind, wp_read. destruct (as_function _) as [f|].
  { apply wp_bind, wp_call_method. destruct (call _ _ _ _); [apply wp_ret|]; by apply Hleaf. }
  apply wp_enter; [intros _; by apply Hleaf|]. simpl. intros Hnotin.
  set (h := st_heap st) in *.
  set (Inv := fun s : state => st_heap s = h /\ visited s = {[r]} ∪ visited st).
  set (Q := fun (A : Type) (o : outcome A) (s : state) => settled o /\ Inv s).
  assert (Hfin : forall A (o : outcome A) (o' : outcome resolved) s,
            Q A o s -> settled o' -> total_post st o' (visited_delete r s)).
  { intros A o o' s (Hs & Hh & Hv) Hs'. split; [done|]. split; [done|].
    simpl. rewrite Hv. set_solver. }
  assert (Hchild : r < length h -> forall k v s, Inv s ->
    wp (transform replacer call n (r :: path) (HObject r) k v) s
       (fun o s' => match o with
                    | Ret _ => Inv s'
                    | _ => Q resolved o s'
                    end)).
  { intros Hlt k v s [Hh Hv]. eapply wp_conseq.
    - apply (IH (m - 1)).
      + rewrite Hh, Hv. pose proof (unvisited_add h (visited st) r Hlt Hnotin). lia.
      + rewrite Hh. pose proof (unvisited_add h (visited st) r Hlt Hnotin). lia.
    - intros o s' (Hs & Hh' & Hv'). unfold Q, Inv. rewrite Hh', Hv'.
      by destruct o. }
  unfold descend. apply wp_bind, wp_read. simpl. fold h.
  destruct (decide (r < length h)) as [Hlt|Hge].
  - destruct (is_array h r).
    + apply wp_bind. eapply wp_conseq.
      { apply (wp_array_loop (array_body replacer call n path r) r
                 (fun f i _ s => Inv s /\ i <= array_length h r < f + i) (Q _)).
        - intros i acc s [HI Hf]. lia.
        - intros f i acc s [HI Hf] _. by split.
        - intros f i acc s [HI Hf] Hi. unfold array_body. apply wp_bind, wp_read.
          eapply wp_conseq; [by apply Hchild|].
          intros [] s'; [|done|done]. intros HI'. split; [done|].
          destruct HI as [Hh _]. rewrite Hh in Hi. lia.
        - split; [done|]. pose proof (array_length_width h r). lia. }
      intros [items|e|] s' HQ; simpl; [apply wp_ret| |]; try (by eapply Hfin).
      by destruct HQ.
    + apply wp_bind, wp_read, wp_bind. eapply wp_conseq.
      { apply (wp_for_each (member_body replacer call n path r) (fun _ _ s => Inv s) (Q _)).
        - intros acc s HI. by split.
        - intros k l acc s HI. unfold member_body. apply wp_bind, wp_read.
          destruct (has_own _ _ _); [|by apply wp_ret].
          apply wp_bind, wp_read, wp_bind.
          eapply wp_conseq; [by apply Hchild|]. by intros [] s'.
        - done. }
      intros [items|e|] s' HQ; simpl; [apply wp_ret| |]; try (by eapply Hfin).
      by destruct HQ.
  - rewrite dangling_is_array by lia.
    apply wp_bind, wp_read. simpl. fold h. rewrite dangling_own_keys by lia.
    simpl. apply wp_bind, wp_ret, wp_ret. split; [done|]. split; [done|].
    simpl. set_solver.
Qed.
End Termination.


(** Induction over resolved trees, through the lists of children. *)
Lemma resolved_tree_ind (P : resolved -> Prop) :
  (forall v, P (RVal v)) ->
  (forall ts, Forall P ts -> P (RArr ts)) ->
  (forall ps, Forall (fun p => P p.2) ps -> P (RObj ps)) ->
  forall t, P t.
Proof.
  intros HV HA HO. fix IH 1. intros [v|ts|ps].
  - apply HV.
  - apply HA. induction ts as [|t ts IHts]; constructor; [apply IH|exact IHts].
  - apply HO. induction ps as [|[k t] ps IHps]; constructor; [apply IH|exact IHps].
Qed.

Section Serializer_total.
Variable call : fn -> heap -> receiver -> list value -> result.
Variable h : heap.

Lemma ofold_settled {A B} (f : B -> A -> outcome B) l : forall acc,
  (forall acc x, settled (f acc x)) -> settled (ofold f l acc).
Proof.
  induction l as [|x l IH]; intros acc Hf; [done|]. simpl.
  pose proof (Hf acc x) as Hx. destruct (f acc x); simpl; auto.
Qed.

Lemma hook_step_settled key v : settled (hook_step call h key v).
Proof.
  unfold hook_step. destruct v; try done.
  destruct (lookup_toJSON h r); try done. by destruct (call _ _ _ _).
Qed.

Lemma ser_value_total fuel : forall stack v,
  unvisited h (list_to_set stack) < fuel -> settled (ser_value call h fuel stack v).
Proof.
  induction fuel as [|n IH]; intros stack v Hfuel; [lia|].
  destruct v as [| | |[]| | | | |r]; try done. simpl.
  case_bool_decide as Hin; [done|].
  assert (Hbody : r < length h -> forall v', settled (ser_value call h n (r :: stack) v')).
  { intros Hlt v'. apply IH. simpl.
    assert (Hnot : r ∉ (list_to_set stack : gset ref)) by set_solver.
    pose proof (unvisited_add h (list_to_set stack) r Hlt Hnot). lia. }
  destruct (decide (r < length h)) as [Hlt|Hge].
  - destruct (is_array h r).
    + match goal with |- settled (obind ?o _) => assert (Hs : settled o) end.
      { apply ofold_settled. intros acc i.
        pose proof (hook_step_settled (pretty i) (array_get h r i)) as Hk.
        destruct (hook_step _ _ _ _); simpl; try done.
        specialize (Hbody Hlt a). by destruct (ser_value _ _ _ _ _). }
      by destruct (ofold _ _ _).
    + match goal with |- settled (obind ?o _) => assert (Hs : settled o) end.
      { apply ofold_settled. intros acc k.
        pose proof (hook_step_settled k (get_prop h r k)) as Hk.
        destruct (hook_step _ _ _ _); simpl; try done.
        specialize (Hbody Hlt a). by destruct (ser_value _ _ _ _ _). }
      by destruct (ofold _ _ _).
  - rewrite dangling_is_array, dangling_own_keys by lia. done.
Qed.

Lemma SerializeJSONProperty_total fuel stack key v :
  length h < fuel -> settled (SerializeJSONProperty call h fuel stack key v).
Proof.
  intros Hfuel. unfold SerializeJSONProperty.
  pose proof (hook_step_settled key v) as Hk.
  destruct (hook_step _ _ _ _); simpl; try done.
  apply ser_value_total. unfold unvisited.
  pose proof (subseteq_size (set_seq 0 (length h) ∖ list_to_set stack)
                (set_seq 0 (length h) : gset ref)) as Hsz.
  rewrite size_set_seq in Hsz. specialize (Hsz ltac:(set_solver)). lia.
Qed.

Lemma render_elements_settled render ts : forall i acc,
  Forall (fun t => forall key, settled (render key t)) ts ->
  settled (render_elements render i ts acc).
Proof.
  induction ts as [|t ts IH]; intros i acc Hts; [done|]. simpl.
  apply Forall_cons in Hts as [Ht Hts]. specialize (Ht (pretty i)).
  destruct (render (pretty i) t); simpl; auto.
Qed.

Lemma render_members_settled render ps : forall acc,
  Forall (fun p => forall key, settled (render key p.2)) ps ->
  settled (render_members render ps acc).
Proof.
  induction ps as [|[k t] ps IH]; intros acc Hps; [done|]. simpl.
  apply Forall_cons in Hps as [Ht Hps]. specialize (Ht k). simpl in Ht.
  destruct (render k t); simpl; auto.
Qed.

Lemma resolved_to_json_total fuel t :
  length h < fuel -> forall key, settled (resolved_to_json call h fuel key t).
Proof.
  intros Hfuel. induction t as [v|ts IH|ps IH] using resolved_tree_ind; intros key; simpl.
  - by apply SerializeJSONProperty_total.
  - pose proof (render_elements_settled (resolved_to_json call h fuel) ts 0 [] IH).
    by destruct (render_elements _ _ _ _).
  - destruct (record_hook ps) as [f|].
    + destruct (call f h (Fresh ps) [VString key]); [|done].
      apply ser_value_total. pose proof (unvisited_le h (list_to_set [])). lia.
    + pose proof (render_members_settled (resolved_to_json call h fuel) ps [] IH).
      by destruct (render_members _ _ _).
Qed.

Lemma JSON_stringify_total fuel t space :
  length h < fuel -> settled (JSON_stringify call h fuel t space).
Proof.
  intros Hfuel. unfold JSON_stringify.
  pose proof (resolved_to_json_total fuel t Hfuel "").
  by destruct (resolved_to_json _ _ _ _ _).
Qed.
End Serializer_total.


(** ** A replacer that keeps making containers *)

Lemma boxing_diverges fuel : forall path parent key x st,
  (forall r, r ∈ visited st -> r < length (st_heap st)) ->
  wp (transform boxing no_functions fuel path parent key (VNumber x)) st
     (fun o _ => o = OutOfFuel).
Proof.
  induction fuel as [|n IH]; intros path parent key x st Hv; [done|].
  apply wp_transform, wp_bind, wp_call_replacer.
  intros res h' [= <- <-] st1. subst st1. simpl.
  set (h := st_heap st) in *.
  set (o := plain [("a", VNumber x)]).
  assert (Hlook : (h ++ [o]) !! length h = Some o) by apply list_lookup_middle, eq_refl.
  apply wp_bind, wp_read. simpl.
  unfold lookup_toJSON at 1. rewrite Hlook. simpl.
  apply wp_enter; simpl.
  { intros Hin. apply Hv in Hin. lia. }
  intros _. unfold descend. apply wp_bind, wp_read. simpl.
  unfold is_array, lookup_body. rewrite Hlook. simpl.
  apply wp_bind, wp_read. simpl. unfold own_keys, lookup_body. rewrite Hlook. simpl.
  apply wp_bind. cbn [for_each]. apply wp_bind. unfold member_body.
  apply wp_bind, wp_read. simpl. unfold has_own, lookup_body. rewrite Hlook. simpl.
  apply wp_bind, wp_read. simpl. unfold get_prop, lookup_body. rewrite Hlook. simpl.
  apply wp_bind. eapply wp_conseq.
  { apply IH. simpl. intros r. rewrite length_app. simpl.
    intros [->%elem_of_singleton|Hin]%elem_of_union; [lia|]. apply Hv in Hin. lia. }
  by intros ? ? ->.
Qed.





(** ** Cycles *)

Lemma wp_and {S A} (m : M S A) s (Q1 Q2 : outcome A -> S -> Prop) :
  wp m s Q1 -> wp m s Q2 -> wp m s (fun o s' => Q1 o s' /\ Q2 o s').
Proof. unfold wp. auto. Qed.

Section Cycles.
Variable replacer : holder -> string -> value -> heap -> result * heap.
Variable call : fn -> heap -> receiver -> list value -> result.
Hypothesis Hpure : pure_replacer replacer.
Hypothesis Hkeeps : keeps_containers replacer.

(** A child that resolves leaves the store and the ancestor set alone. *)
Lemma child_frame n path parent key val st :
  wp (transform replacer call n path parent key val) st
     (fun o st' =>
        forall t, o = Ret t -> st_heap st' = st_heap st /\ visited st' = visited st).
Proof.
  eapply wp_conseq; [apply wp_and; [apply transform_trace|apply transform_block]|].
  intros o st' [[Hv _] [Hh _]] t ->. split; [by apply Hh|by apply Hv].
Qed.

Lemma cycle_not_resolved h anc v :
  on_cycle h anc v ->
  forall fuel path parent key st,
    st_heap st = h -> visited st = anc ->
    wp (transform replacer call fuel path parent key v) st (fun o _ => forall t, o <> Ret t).
Proof.
  induction 1 as [anc r Hplain Hin|anc r k c Hplain Hnotin Hchild _ IH];
    intros fuel path parent key st Hh Hv; (destruct fuel as [|n]; [done|]).
  - apply wp_transform, wp_bind, wp_call_replacer. intros res h' Hrep st1.
    pose proof (Hkeeps parent key r (st_heap st)) as Hk. rewrite Hrep in Hk.
    pose proof (Hpure parent key (VObject r) (st_heap st)) as Hp. rewrite Hrep in Hp.
    simpl in Hk, Hp. subst res h'.
    apply wp_bind, wp_read. simpl. rewrite Hh, Hplain.
    apply wp_enter; [done|]. simpl. rewrite Hv. done.
  - apply wp_transform, wp_bind, wp_call_replacer. intros res h' Hrep st1.
    pose proof (Hkeeps parent key r (st_heap st)) as Hk. rewrite Hrep in Hk.
    pose proof (Hpure parent key (VObject r) (st_heap st)) as Hp. rewrite Hrep in Hp.
    simpl in Hk, Hp. subst res h'.
    apply wp_bind, wp_read. simpl. rewrite Hh, Hplain.
    apply wp_enter; [done|]. simpl. intros _.
    set (Inv := fun s : state => st_heap s = h /\ visited s = {[r]} ∪ anc).
    assert (Hother : forall k' v' s, Inv s ->
      wp (transform replacer call n (r :: path) (HObject r) k' v') s
         (fun o s' => match o with Ret _ => Inv s' | _ => True end)).
    { intros k' v' s [Hh' Hv']. eapply wp_conseq; [apply child_frame|].
      intros [t| |] s' Hf; [|done|done]. destruct (Hf t eq_refl) as [E1 E2].
      unfold Inv. by rewrite E1, E2. }
    assert (Hthis : forall k' s, Inv s ->
      wp (transform replacer call n (r :: path) (HObject r) k' c) s
         (fun o s' => forall t, o <> Ret t)).
    { intros k' s [Hh' Hv']. by apply IH. }
    unfold descend. apply wp_bind, wp_read. simpl. rewrite Hh.
    unfold children_kv in Hchild. destruct (is_array h r).
    + apply list_elem_of_fmap in Hchild as (i0 & [= -> ->] & Hi0).
      apply elem_of_seq in Hi0. apply wp_bind. eapply wp_conseq.
      { apply (wp_array_loop (array_body replacer call n path r) r
                 (fun _ i _ s => Inv s /\ i <= i0)
                 (fun o _ => forall t, o <> Ret t)).
        - done.
        - intros f i acc s [[Hh' _] Hle]. rewrite Hh'. lia.
        - intros f i acc s [HI Hle] Hlt. unfold array_body. apply wp_bind, wp_read.
          destruct HI as [Hh' Hv']. rewrite Hh'.
          destruct (decide (i = i0)) as [->|Hne].
          + eapply wp_conseq; [by apply Hthis|]. intros [t| |] s' Ht; [by destruct (Ht t)|done|done].
          + eapply wp_conseq; [by apply Hother|]. intros [t| |] s' Ht; [|done|done].
            split; [done|lia].
        - split; [|lia]. split; [done|]. simpl. by rewrite Hv. }
      intros [items| |] s' HQ; [by destruct (HQ items)|done|done].
    + apply list_elem_of_fmap in Hchild as (k0 & [= -> ->] & Hk0).
      apply wp_bind, wp_read, wp_bind. simpl. rewrite ?Hh. eapply wp_conseq.
      { apply (wp_for_each (member_body replacer call n path r)
                 (fun l _ s => Inv s /\ k0 ∈ l)
                 (fun o _ => forall t, o <> Ret t)).
        - intros acc s [_ Hin]. by apply elem_of_nil in Hin.
        - intros k' l acc s [HI Hin]. unfold member_body. apply wp_bind, wp_read.
          destruct HI as [Hh' Hv']. rewrite Hh'.
          destruct (decide (k' = k0)) as [->|Hne].
          + rewrite has_own_own_keys by done. apply wp_bind, wp_read, wp_bind. rewrite Hh'.
            eapply wp_conseq; [by apply Hthis|]. intros [t| |] s' Ht; [by destruct (Ht t)|done|done].
          + assert (k0 ∈ l) by (apply elem_of_cons in Hin as [?|?]; [congruence|done]).
            destruct (has_own h r k'); [|by apply wp_ret].
            apply wp_bind, wp_read, wp_bind. rewrite Hh'.
            eapply wp_conseq; [by apply Hother|]. intros [t| |] s' Ht; [|done|done].
            by apply wp_ret.
        - split; [|done]. split; [done|]. simpl. by rewrite Hv. }
      intros [items| |] s' HQ; [by destruct (HQ items)|done|done].
Qed.

Lemma transform_failures h fuel : forall path parent key val st,
  st_heap st = h ->
  wp (transform replacer call fuel path parent key val) st
     (fun o st' => st_heap st' = h /\ forall e, o = Throw e -> failure_of replacer call h e).
Proof.
  induction fuel as [|n IH]; intros path parent key val st Hh; [done|].
  apply wp_transform, wp_bind, wp_call_replacer. intros res h' Hrep st1.
  pose proof (Hpure parent key val (st_heap st)) as Hp. rewrite Hrep in Hp.
  simpl in Hp. subst h' st1. simpl. rewrite ?Hh.
  destruct res as [v|e].
  2:{ split; [done|]. intros e' [= <-]. right; right; right.
      exists parent, key, val. by rewrite <- Hh, Hrep. }
  destruct v as [| | | | | | | |r]; try (apply wp_ret; by split);
    try (apply wp_throw; split; [done|]; intros e [= <-]; right; by left).
  apply wp_bind, wp_read. simpl. destruct (as_function _) as [f|].
  { apply wp_bind, wp_call_method. simpl. destruct (call f h (OfStore (VObject r)) []) as [w|e] eqn:Ec.
    - apply wp_ret. by split.
    - split; [done|]. intros e' [= <-]. right; right; left. by exists f, (OfStore (VObject r)). }
  apply wp_enter; simpl; [intros _; split; [done|]; intros e [= <-]; by left|].
  intros _.
  set (Q := fun (A : Type) (o : outcome A) (s : state) =>
              st_heap s = h /\ forall e, o = Throw e -> failure_of replacer call h e).
  assert (Hchild : forall k v s, st_heap s = h ->
    wp (transform replacer call n (r :: path) (HObject r) k v) s
       (fun o s' => match o with
                    | Ret _ => st_heap s' = h
                    | Throw e => forall A, Q A (Throw e) s'
                    | OutOfFuel => forall A, Q A OutOfFuel s'
                    end)).
  { intros k v s Hs. eapply wp_conseq; [by apply IH|].
    intros [t|e|] s' [Hh' He]; [done|intros A|intros A]; (split; [done|]).
    - intros e' [= <-]. by apply He.
    - done. }
  assert (Hfin : forall A (o : outcome A) s, Q A o s ->
     match o with
     | Ret _ => forall t : resolved, Q resolved (Ret t) (visited_delete r s)
     | Throw e => Q resolved (Throw e) (visited_delete r s)
     | OutOfFuel => Q resolved OutOfFuel s
     end).
  { intros A o s [Hs He]. destruct o; [intros t; by split| |by split].
    split; [done|]. intros e' [= <-]. by apply He. }
  unfold descend. apply wp_bind, wp_read. simpl. destruct (is_array h r).
  - apply wp_bind. eapply wp_conseq.
    { apply (wp_array_loop (array_body replacer call n path r) r
               (fun _ _ _ s => st_heap s = h) (Q _)); [by split|by split| |done].
      intros f i acc s Hs _. unfold array_body. apply wp_bind, wp_read.
      eapply wp_conseq; [by apply Hchild|]. intros [] s'; auto. }
    intros [items|e|] s' HQ; simpl.
    + apply wp_ret. exact (Hfin _ (Ret items) _ HQ _).
    + exact (Hfin _ (Throw e) _ HQ).
    + exact (Hfin _ OutOfFuel _ HQ).
  - apply wp_bind, wp_read, wp_bind. eapply wp_conseq.
    { apply (wp_for_each (member_body replacer call n path r)
               (fun _ _ s => st_heap s = h) (Q _)); [by split| |done].
      intros k l acc s Hs. unfold member_body. apply wp_bind, wp_read.
      destruct (has_own _ _ _); [|by apply wp_ret].
      apply wp_bind, wp_read, wp_bind.
      eapply wp_conseq; [by apply Hchild|]. intros [] s'; auto. }
    intros [items|e|] s' HQ; simpl.
    + apply wp_ret. exact (Hfin _ (Ret items) _ HQ _).
    + exact (Hfin _ (Throw e) _ HQ).
    + exact (Hfin _ OutOfFuel _ HQ).
Qed.
End Cycles.





(** ** Agreement with the synchronous encoder *)

Section Folds.
Context {A B : Type} (f : B -> A -> outcome B).

Lemma ofold_app l1 l2 : forall acc,
  ofold f (l1 ++ l2) acc = let+ a := ofold f l1 acc in ofold f l2 a.
Proof.
  induction l1 as [|y l IH]; intros acc; simpl; [done|].
  destruct (f acc y); simpl; [apply IH|done|done].
Qed.

Lemma ofold_snoc l x : forall acc,
  ofold f (l ++ [x]) acc = let+ a := ofold f l acc in f a x.
Proof.
  induction l as [|y l IH]; intros acc; simpl.
  - by destruct (f acc x).
  - destruct (f acc y); simpl; [apply IH|done|done].
Qed.

Lemma ofold_app_throw l1 l2 acc e :
  ofold f l1 acc = Throw e -> ofold f (l1 ++ l2) acc = Throw e.
Proof.
  revert acc. induction l1 as [|y l IH]; intros acc; simpl; [done|].
  destruct (f acc y); simpl; [apply IH|done|done].
Qed.

Lemma ofold_ext (g : B -> A -> outcome B) l : forall acc,
  (forall a x, x ∈ l -> f a x = g a x) -> ofold f l acc = ofold g l acc.
Proof.
  induction l as [|y l IH]; intros acc Hfg; simpl; [done|].
  rewrite Hfg by set_solver. destruct (g acc y); simpl; [|done|done].
  apply IH. intros a' x Hx. apply Hfg. set_solver.
Qed.
End Folds.

Lemma render_elements_snoc render ts t : forall i acc,
  render_elements render i (ts ++ [t]) acc =
  let+ js := render_elements render i ts acc in
  let+ j := render (pretty (i + length ts)) t in
  Ret (push_element js j).
Proof.
  induction ts as [|t' ts IH]; intros i acc; simpl.
  - rewrite Nat.add_0_r. by destruct (render (pretty i) t).
  - destruct (render (pretty i) t'); simpl; [|done|done].
    rewrite IH. by rewrite Nat.add_succ_r.
Qed.

Lemma render_members_snoc render ps k t : forall acc,
  render_members render (ps ++ [(k, t)]) acc =
  let+ ms := render_members render ps acc in
  let+ j := render k t in
  Ret (push_member ms k j).
Proof.
  induction ps as [|[k' t'] ps IH]; intros acc; simpl.
  - by destruct (render k t).
  - destruct (render k' t'); simpl; [apply IH|done|done].
Qed.

Lemma prop_set_fresh {A} k (v : A) ps : k ∉ ps.*1 -> prop_set k v ps = ps ++ [(k, v)].
Proof.
  induction ps as [|[k' v'] ps IH]; simpl; [done|]. intros Hnot.
  case_bool_decide; [set_solver|]. rewrite IH; [done|set_solver].
Qed.

Lemma NoDup_own_keys h r : NoDup (own_keys h r).
Proof.
  unfold own_keys. destruct (lookup_body h r) as [[]|]; try constructor.
  apply NoDup_remove_dups.
Qed.


Lemma assoc_elem {A} k (ps : list (string * A)) : k ∈ ps.*1 -> is_Some (assoc k ps).
Proof.
  induction ps as [|[k' v] ps IH]; simpl; [by intros ?%elem_of_nil|]. intros Hin.
  case_bool_decide; [by eexists|]. apply IH. apply elem_of_cons in Hin as [?|?]; [congruence|done].
Qed.

Lemma assoc_snoc {A} k k' (v : A) ps :
  assoc k (ps ++ [(k', v)]) =
    match assoc k ps with
    | Some x => Some x
    | None => assoc k [(k', v)]
    end.
Proof.
  induction ps as [|[k0 v0] ps IH]; [done|]. cbn [app assoc].
  destruct (bool_decide (k0 = k)); [done|apply IH].
Qed.

Lemma record_hook_snoc acc k t :
  record_hook acc = None ->
  (k = "toJSON" -> forall f, t <> RVal (VFunction f)) ->
  record_hook (acc ++ [(k, t)]) = None.
Proof.
  unfold record_hook. intros Hacc Ht. rewrite assoc_snoc.
  destruct (assoc "toJSON" acc) as [x|]; [done|]. cbn [assoc].
  case_bool_decide as Hk; [|done]. specialize (Ht Hk).
  destruct t as [[]| |]; try done. by destruct (Ht f).
Qed.

(** In a container without a [toJSON] method, an own member named [toJSON]
    is not a function. *)
Lemma plain_toJSON_member h r :
  as_function (lookup_toJSON h r) = None ->
  "toJSON" ∈ own_keys h r ->
  as_function (get_prop h r "toJSON") = None.
Proof.
  unfold lookup_toJSON, own_keys, get_prop, lookup_body.
  destruct (h !! r) as [o|]; simpl; [|by intros _ ?%elem_of_nil].
  destruct (o_body o) as [l|ps]; [by intros _ ?%elem_of_nil|].
  rewrite elem_of_remove_dups. intros Hplain [v Hv]%assoc_elem. by rewrite Hv in *.
Qed.

Section Encoder.
Variable call : fn -> heap -> receiver -> list value -> result.
Variable h : heap.
Hypothesis Hhooks : hooks_ok call h.

Lemma as_function_Some v f : as_function v = Some f -> v = VFunction f.
Proof. destruct v; simpl; congruence. Qed.

Lemma hook_step_free key v : hook_free h v -> hook_step call h key v = Ret v.
Proof.
  destruct v as [| | | | | | | |r]; try done. simpl. intros Hfree.
  by destruct (lookup_toJSON h r).
Qed.

Lemma hook_step_hook key r f :
  as_function (lookup_toJSON h r) = Some f ->
  hook_step call h key (VObject r) =
    match call f h (OfStore (VObject r)) [] with Ok w => Ret w | Err e => Throw e end.
Proof.
  intros Hf. simpl. rewrite (as_function_Some _ _ Hf).
  by rewrite (proj1 (Hhooks r f Hf) key).
Qed.

Lemma SerializeJSONProperty_free fuel stack key v :
  hook_free h v -> SerializeJSONProperty call h fuel stack key v = ser_value call h fuel stack v.
Proof. intros Hfree. unfold SerializeJSONProperty. by rewrite hook_step_free. Qed.

Lemma ser_value_container n stack r :
  r ∉ stack ->
  ser_value call h (S n) stack (VObject r) =
    if is_array h r then
      let+ js := ofold (element_step call h n stack r) (seq 0 (array_length h r)) [] in
      Ret (Some (JArray js))
    else
      let+ ms := ofold (member_step call h n stack r) (own_keys h r) [] in
      Ret (Some (JObject ms)).
Proof. intros Hnot. cbn [ser_value]. by rewrite bool_decide_eq_false_2. Qed.

Lemma element_step_property n stack r acc i :
  element_step call h n stack r acc i =
  let+ j := SerializeJSONProperty call h n (r :: stack) (pretty i) (array_get h r i) in
  Ret (push_element acc j).
Proof.
  unfold element_step, SerializeJSONProperty. by destruct (hook_step _ _ _ _).
Qed.

Lemma member_step_property n stack r acc k :
  member_step call h n stack r acc k =
  let+ j := SerializeJSONProperty call h n (r :: stack) k (get_prop h r k) in
  Ret (push_member acc k j).
Proof.
  unfold member_step, SerializeJSONProperty. by destruct (hook_step _ _ _ _).
Qed.

Lemma dangling_array_length r : length h <= r -> array_length h r = 0.
Proof. intros H. unfold array_length, lookup_body. by rewrite lookup_ge_None_2. Qed.

(** Over an acyclic value the serializer does not depend on the stack it
    starts with, on the key, or on the fuel, once there is enough. *)
Lemma serialize_irrelevant anc v :
  acyclic call h anc v ->
  forall n1 n2 s1 s2 k1 k2,
    (forall x, x ∈ s1 -> x ∈ anc) -> (forall x, x ∈ s2 -> x ∈ anc) ->
    unvisited h (list_to_set s1) < n1 -> unvisited h (list_to_set s2) < n2 ->
    SerializeJSONProperty call h n1 s1 k1 v = SerializeJSONProperty call h n2 s2 k2 v.
Proof.
  induction 1 as [anc v Hleaf|anc r f Hf _ IH|anc r Hplain Hnotin _ IH];
    intros n1 n2 s1 s2 k1 k2 Hs1 Hs2 Hn1 Hn2.
  - rewrite !SerializeJSONProperty_free by (by destruct v).
    destruct n1 as [|n1]; [lia|]. destruct n2 as [|n2]; [lia|]. by destruct v.
  - unfold SerializeJSONProperty. rewrite !(hook_step_hook _ _ _ Hf).
    destruct (call f h (OfStore (VObject r)) []) as [w|e] eqn:Ec; [|done]. simpl.
    pose proof (proj1 (proj2 (Hhooks r f Hf) w Ec)) as Hfree.
    rewrite <- !(SerializeJSONProperty_free _ _ k1 w Hfree). by apply IH.
  - rewrite !SerializeJSONProperty_free by done.
    destruct n1 as [|n1]; [lia|]. destruct n2 as [|n2]; [lia|].
    rewrite !ser_value_container by (intros ?; apply Hnotin; auto).
    destruct (decide (r < length h)) as [Hlt|Hge].
    2:{ rewrite dangling_is_array, !dangling_own_keys by lia. done. }
    assert (Hchild : forall k c, (k, c) ∈ children_kv h r ->
              SerializeJSONProperty call h n1 (r :: s1) k c =
              SerializeJSONProperty call h n2 (r :: s2) k c).
    { intros k c Hin. apply (IH k c Hin).
      - intros x [->|?]%elem_of_cons; set_solver.
      - intros x [->|?]%elem_of_cons; set_solver.
      - simpl. assert (Hnot : r ∉ (list_to_set s1 : gset ref)) by set_solver.
        pose proof (unvisited_add h (list_to_set s1) r Hlt Hnot). lia.
      - simpl. assert (Hnot : r ∉ (list_to_set s2 : gset ref)) by set_solver.
        pose proof (unvisited_add h (list_to_set s2) r Hlt Hnot). lia. }
    unfold children_kv in Hchild. destruct (is_array h r).
    + rewrite (ofold_ext _ (element_step call h n2 s2 r)); [done|].
      intros a i Hi. rewrite !element_step_property, Hchild; [done|].
      apply list_elem_of_fmap. by exists i.
    + rewrite (ofold_ext _ (member_step call h n2 s2 r)); [done|].
      intros a k Hk. rewrite !member_step_property, Hchild; [done|].
      apply list_elem_of_fmap. by exists k.
Qed.

(** The engine under the identity replacer, against the serializer run on
    the same value: the resolved tree renders as the value serializes, and
    where the engine fails the serializer fails. *)
Lemma transform_simulates anc v :
  acyclic call h anc v ->
  forall fuel m path parent key st F stack,
    st_heap st = h -> visited st = anc ->
    unvisited h anc <= m -> m + width h + 2 <= fuel ->
    length h < F -> list_to_set stack = anc ->
    wp (transform identity call fuel path parent key v) st
       (fun o st' =>
          st_heap st' = h /\ visited st' = anc /\
          match o with
          | Ret t =>
              resolved_to_json call h F key t =
                SerializeJSONProperty call h fuel stack key v /\
              (forall f, t = RVal (VFunction f) -> v = VFunction f)
          | Throw _ => exists e, SerializeJSONProperty call h fuel stack key v = Throw e
          | OutOfFuel => False
          end).
Proof.
  induction 1 as [anc v Hleaf|anc r f Hf Hw _|anc r Hplain Hnotin Hkids IH];
    intros fuel m path parent key st F stack Hh Hv Hm Hfuel HF Hstack;
    (destruct fuel as [|n]; [lia|]);
    apply wp_transform, wp_bind, wp_call_replacer; intros res h' [= <- <-] st1;
    subst st1; simpl; rewrite ?Hh.
  - (* a value that is not a container *)
    assert (Hirr : SerializeJSONProperty call h F [] key v =
                   SerializeJSONProperty call h (S n) stack key v).
    { apply (serialize_irrelevant anc); [by constructor|set_solver|set_solver| |].
      - pose proof (unvisited_le h (list_to_set [])). lia.
      - rewrite Hstack. lia. }
    destruct v as [| | | | | | | |r]; try done;
      try (apply wp_ret; repeat split; try done; intros ? Heq; by inversion Heq).
    apply wp_throw. repeat split; try done. by eexists.
  - (* a container with a toJSON method *)
    apply wp_bind, wp_read. simpl. rewrite ?Hh, Hf.
    apply wp_bind, wp_call_method. simpl. rewrite ?Hh.
    unfold SerializeJSONProperty. rewrite (hook_step_hook _ _ _ Hf).
    destruct (call f h (OfStore (VObject r)) []) as [w|e] eqn:Ec; cbn [obind]; [|repeat split; eauto].
    destruct (proj2 (Hhooks r f Hf) w Ec) as [Hfree Hdata].
    apply wp_ret. split; [done|]. split; [done|]. split.
    + cbn [resolved_to_json obind].
      rewrite <- (SerializeJSONProperty_free (S n) stack key w Hfree).
      apply (serialize_irrelevant anc); [by apply Hw|set_solver|set_solver| |].
      * pose proof (unvisited_le h (list_to_set [])). lia.
      * rewrite Hstack. lia.
    + intros f' [= ->]. done.
  - (* a container without one *)
    apply wp_bind, wp_read. simpl. rewrite ?Hh, Hplain.
    apply wp_enter; simpl; [by rewrite Hv|]. intros _.
    assert (Hnotstack : r ∉ stack) by (rewrite <- Hstack in Hnotin; set_solver).
    rewrite (SerializeJSONProperty_free (S n) stack key (VObject r)) by done.
    rewrite ser_value_container by done.
    set (R := resolved_to_json call h F).
    assert (HR : forall key t, settled (R key t)).
    { intros k t. by apply resolved_to_json_total. }
    set (Inv := fun s : state => st_heap s = h /\ visited s = {[r]} ∪ anc).
    assert (Hdel : forall s, Inv s -> st_heap (visited_delete r s) = h /\
                                       visited (visited_delete r s) = anc).
    { intros s [Hs Hvs]. split; [done|]. simpl. rewrite Hvs. set_solver. }
    unfold descend. apply wp_bind, wp_read. simpl. rewrite ?Hh.
    destruct (decide (r < length h)) as [Hlt|Hge].
    2:{ rewrite dangling_is_array by lia.
        apply wp_bind, wp_read. simpl. rewrite ?Hh, dangling_own_keys by lia.
        simpl. apply wp_bind, wp_ret, wp_ret. repeat split; try done.
        simpl. rewrite Hv. set_solver. }
    assert (Hchild : forall k c s, (k, c) ∈ children_kv h r -> Inv s ->
      wp (transform identity call n (r :: path) (HObject r) k c) s
         (fun o s' =>
            Inv s' /\
            match o with
            | Ret t =>
                R k t = SerializeJSONProperty call h n (r :: stack) k c /\
                (forall f, t = RVal (VFunction f) -> c = VFunction f)
            | Throw _ => exists e, SerializeJSONProperty call h n (r :: stack) k c = Throw e
            | OutOfFuel => False
            end)).
    { intros k c s Hin [Hs Hvs].
      eapply wp_conseq.
      - apply (IH k c Hin n (m - 1) (r :: path) (HObject r) k s F (r :: stack)); try done.
        + pose proof (unvisited_add h anc r Hlt Hnotin). lia.
        + pose proof (unvisited_add h anc r Hlt Hnotin). lia.
        + simpl. by rewrite Hstack.
      - intros o s' (? & ? & ?). by repeat split. }
    unfold children_kv in Hchild. destruct (is_array h r).
    + set (E := element_step call h n stack r).
      set (len := array_length h r).
      apply wp_bind. eapply wp_conseq.
      { apply (wp_array_loop (array_body identity call n path r) r
                 (fun f i acc s =>
                    Inv s /\ i <= len < f + i /\ length acc = i /\
                    render_elements R 0 acc [] = ofold E (seq 0 i) [])
                 (fun o s =>
                    Inv s /\
                    match o with
                    | Ret ts => render_elements R 0 ts [] = ofold E (seq 0 len) []
                    | Throw _ => exists e, ofold E (seq 0 len) [] = Throw e
                    | OutOfFuel => False
                    end)).
        - intros i acc s (_ & Hi & _). lia.
        - intros f i acc s ([Hs Hvs] & Hi & Hl & Hrel) Hexit. rewrite Hs in Hexit.
          fold len in Hexit. replace len with i by lia. by split.
        - intros f i acc s ([Hs Hvs] & Hi & Hl & Hrel) Hlt'. rewrite Hs in Hlt'.
          fold len in Hlt'. unfold array_body. apply wp_bind, wp_read. rewrite Hs.
          eapply wp_conseq.
          { apply Hchild; [|done]. apply list_elem_of_fmap. exists i.
            split; [done|]. apply elem_of_seq. fold len. lia. }
          intros o s' [HI Ho]. destruct o as [t|e|]; [| |done].
          * destruct Ho as [Ho _].
            split; [done|]. split; [lia|]. split; [rewrite length_app; simpl; lia|].
            rewrite render_elements_snoc, Hrel, seq_S, ofold_snoc. simpl. rewrite Hl.
            destruct (ofold E (seq 0 i) []) as [js| |]; simpl; [|done|done].
            unfold E. by rewrite element_step_property, Ho.
          * split; [done|]. destruct Ho as [e' He'].
            replace len with (i + S (len - S i)) by lia.
            rewrite seq_app, ofold_app, <- Hrel. simpl.
            pose proof (render_elements_settled R acc 0 []) as Hset.
            destruct (render_elements R 0 acc []) as [js|e0|]; simpl.
            -- unfold E at 1. rewrite element_step_property, He'. simpl. by eexists.
            -- by eexists.
            -- exfalso. apply Hset. apply Forall_forall. intros t _ k. apply HR.
        - split; [by split; simpl; rewrite ?Hh, ?Hv|]. split; [|done]. split; [lia|].
          pose proof (array_length_width h r) as Hw'. fold len in Hw'. lia. }
      intros o s' [HI Ho]. destruct (Hdel _ HI) as [Hd1 Hd2].
      destruct o as [ts|e|]; [| |done].
      * apply wp_ret. split; [done|]. split; [done|]. split; [|done].
        unfold R. cbn [resolved_to_json]. fold R. by rewrite Ho.
      * destruct Ho as [e' He']. split; [done|]. split; [done|].
        rewrite He'. by eexists.
    + set (E := member_step call h n stack r).
      set (ks := own_keys h r).
      apply wp_bind, wp_read. simpl. rewrite ?Hh. fold ks.
      apply wp_bind. eapply wp_conseq.
      { apply (wp_for_each (member_body identity call n path r)
                 (fun l acc s =>
                    Inv s /\ exists pre, ks = pre ++ l /\ acc.*1 = pre /\
                    record_hook acc = None /\
                    render_members R acc [] = ofold E pre [])
                 (fun o s =>
                    Inv s /\
                    match o with
                    | Ret ps =>
                        record_hook ps = None /\
                        render_members R ps [] = ofold E ks []
                    | Throw _ => exists e, ofold E ks [] = Throw e
                    | OutOfFuel => False
                    end)).
        - intros acc s (HI & pre & Hks & Hacc & Hrh & Hrel). rewrite app_nil_r in Hks.
          subst pre. by split.
        - intros k l acc s ([Hs Hvs] & pre & Hks & Hacc & Hrh & Hrel).
          assert (Hk : k ∈ ks) by (rewrite Hks; set_solver).
          assert (Hfresh : k ∉ acc.*1).
          { rewrite Hacc. pose proof (NoDup_own_keys h r) as Hnd. fold ks in Hnd.
            rewrite Hks in Hnd. apply NoDup_app in Hnd as (_ & Hdis & _).
            intros Hin. apply (Hdis k Hin). set_solver. }
          unfold member_body. apply wp_bind, wp_read. rewrite Hs.
          rewrite has_own_own_keys by done.
          apply wp_bind, wp_read, wp_bind. rewrite Hs.
          eapply wp_conseq.
          { apply Hchild; [|done]. apply list_elem_of_fmap. by exists k. }
          intros o s' [HI Ho]. destruct o as [t|e|]; [| |done].
          * destruct Ho as [Ho Hfun].
            apply wp_ret. split; [done|]. exists (pre ++ [k]).
            split; [by rewrite <- app_assoc|].
            rewrite prop_set_fresh by done. split; [by rewrite fmap_app, Hacc|].
            split.
            { apply record_hook_snoc; [done|]. intros -> f ->.
              pose proof (plain_toJSON_member h r Hplain Hk) as Hmem.
              by rewrite (Hfun f eq_refl) in Hmem. }
            rewrite render_members_snoc, Hrel, ofold_snoc.
            destruct (ofold E pre []) as [ms| |]; simpl; [|done|done].
            unfold E. by rewrite member_step_property, Ho.
          * split; [done|]. destruct Ho as [e' He'].
            rewrite Hks, ofold_app, <- Hrel. simpl.
            pose proof (render_members_settled R acc []) as Hset.
            destruct (render_members R acc []) as [ms|e0|]; simpl.
            -- unfold E at 1. rewrite member_step_property, He'. simpl. by eexists.
            -- by eexists.
            -- exfalso. apply Hset. apply Forall_forall. intros t _ k'. apply HR.
        - split; [by split; simpl; rewrite ?Hh, ?Hv|]. by exists []. }
      intros o s' [HI Ho]. destruct (Hdel _ HI) as [Hd1 Hd2].
      destruct o as [ps|e|]; [| |done].
      * destruct Ho as [Hrh Ho].
        apply wp_ret. split; [done|]. split; [done|]. split; [|done].
        unfold R. cbn [resolved_to_json]. rewrite Hrh. fold R. by rewrite Ho.
      * destruct Ho as [e' He']. split; [done|]. split; [done|].
        rewrite He'. by eexists.
Qed.
End Encoder.

Lemma agree_refl {A} (o : outcome A) : settled o -> agree o o.
Proof. by destruct o. Qed.




(** * Further properties of the engine *)

(** ** The context of the replacer calls *)

Lemma array_child h r i :
  is_array h r = true -> i < array_length h r ->
  (pretty i, array_get h r i) ∈ children_kv h r.
Proof.
  intros Harr Hlt. unfold children_kv. rewrite Harr.
  apply list_elem_of_fmap. exists i. split; [done|]. apply elem_of_seq. lia.
Qed.

Lemma member_child h r k :
  is_array h r = false -> k ∈ own_keys h r ->
  (k, get_prop h r k) ∈ children_kv h r.
Proof.
  intros Harr Hin. unfold children_kv. rewrite Harr.
  apply list_elem_of_fmap. by exists k.
Qed.

Lemma children_kv_valid h r kv : kv ∈ children_kv h r -> r < length h.
Proof.
  intros Hin. destruct (decide (r < length h)) as [|Hge]; [done|].
  unfold children_kv in Hin.
  rewrite dangling_is_array, dangling_own_keys in Hin by lia.
  by apply elem_of_nil in Hin.
Qed.

Section Context_of_calls.
Variable replacer : holder -> string -> value -> heap -> result * heap.
Variable call : fn -> heap -> receiver -> list value -> result.
Hypothesis Hpure : pure_replacer replacer.
Variable h : heap.

Lemma transform_context fuel : forall path parent key val st,
  st_heap st = h ->
  wp (transform replacer call fuel path parent key val) st
     (fun _ st' =>
        st_heap st' = h /\
        exists new, calls st' = calls st ++ new /\
          Forall (fun c => own_call path parent key val c \/ child_call h c) new).
Proof.
  induction fuel as [|n IH]; intros path parent key val st Hh.
  { apply wp_out_of_fuel. split; [done|]. exists []. by rewrite app_nil_r. }
  apply wp_transform, wp_bind, wp_call_replacer.
  intros res h' Hrep st1.
  assert (h' = h) as ->.
  { pose proof (Hpure parent key val (st_heap st)) as Hp. rewrite Hrep in Hp.
    simpl in Hp. by rewrite Hp. }
  set (Inv := fun s : state =>
    st_heap s = h /\
    exists new, calls s = calls st ++ new /\
      Forall (fun c => own_call path parent key val c \/ child_call h c) new).
  assert (Hst1 : Inv st1).
  { split; [done|]. eexists. split; [done|]. constructor; [by left|constructor]. }
  destruct res as [v|e]; [|exact Hst1].
  destruct v as [| | | | | | | |r]; try (by apply wp_ret); try (by apply wp_throw).
  apply wp_bind, wp_read. destruct (as_function _) as [f|].
  { apply wp_bind, wp_call_method. destruct (call _ _ _ _); [apply wp_ret|]; exact Hst1. }
  apply wp_enter; [intros _; exact Hst1|]. intros Hnotin.
  assert (Hchild : forall k v s, (k, v) ∈ children_kv h r -> Inv s ->
    wp (transform replacer call n (r :: path) (HObject r) k v) s (fun _ s' => Inv s')).
  { intros k v s Hin [Hs (new & Hc & HP)]. eapply wp_conseq; [by apply IH|].
    intros o s' [Hs' (new' & Hc' & HP')]. split; [done|].
    exists (new ++ new'). split; [by rewrite Hc', Hc, app_assoc|].
    apply Forall_app. split; [done|]. eapply Forall_impl; [exact HP'|].
    intros c [(Ep & Et & Ek & Ev)|Hcc]; right; [|done].
    exists r, path. by rewrite Ek, Ev. }
  assert (Hdel : forall s, Inv s -> Inv (visited_delete r s)) by done.
  unfold descend. apply wp_bind, wp_read. simpl.
  destruct (is_array h r) eqn:Harr.
  - apply wp_bind. eapply wp_conseq.
    { apply (wp_array_loop (array_body replacer call n path r) r
               (fun _ _ _ s => Inv s) (fun _ s => Inv s)); [done|done| |exact Hst1].
      intros f i acc s HI Hlt. unfold array_body. apply wp_bind, wp_read.
      destruct HI as [Hs HI]. rewrite Hs in Hlt |- *.
      eapply wp_conseq; [apply Hchild; [by apply array_child|by split]|]. by intros [] s'. }
    intros [items|e|] s' HQ; simpl; [apply wp_ret| |]; by apply Hdel.
  - apply wp_bind, wp_read, wp_bind. simpl. eapply wp_conseq.
    { apply (wp_for_each (member_body replacer call n path r)
               (fun l _ s => Inv s /\ forall k, k ∈ l -> k ∈ own_keys h r)
               (fun _ s => Inv s)); [by intros ? ? []| |by split].
      intros k l acc s [HI Hl]. unfold member_body. apply wp_bind, wp_read.
      assert (Hl' : forall k0, k0 ∈ l -> k0 ∈ own_keys h r).
      { intros k0 Hk0. apply Hl. by right. }
      destruct (has_own _ _ _); [|by apply wp_ret].
      apply wp_bind, wp_read, wp_bind. destruct HI as [Hs HI]. rewrite Hs.
      eapply wp_conseq; [apply Hchild; [apply member_child; [done|apply Hl; by left]|by split]|].
      by intros [] s'. }
    intros [items|e|] s' HQ; simpl; [apply wp_ret| |]; try by apply Hdel.
Qed.
End Context_of_calls.

(** X1: at every replacer call of a run whose replacer leaves the store
    alone, [this[key]] is the value: the root call has the synthetic
    [{ '': value }] as context and the empty key; every other call has as
    context the container it was reached from, the innermost one of its
    path, and that container holds the value under the key. *)
Theorem replacer_context_holds_value replacer call fuel value space h c :
  pure_replacer replacer ->
  c ∈ calls (asyncStringify replacer call fuel value space h).2 ->
  holds_value h value c.
Proof.
  intros Hpure. unfold asyncStringify, bind. fold (initial h).
  pose proof (transform_context replacer call Hpure h fuel [] (HRoot value) "" value
                (initial h) eq_refl) as H.
  unfold wp in H.
  destruct (transform replacer call fuel [] (HRoot value) "" value (initial h)) as [o st'].
  destruct H as [_ (new & Hc & HP)]. simpl in Hc.
  assert (Hin : c ∈ calls st' -> holds_value h value c).
  { rewrite Hc. intros Hin. rewrite Forall_forall in HP.
    destruct (HP c Hin) as [(Ep & Et & Ek & Ev)|(r & p & Ep & Et & Hkv)]; unfold holds_value.
    - by rewrite Et.
    - rewrite Et, Ep. done. }
  by destruct o.
Qed.

Lemma replacer_context_holds_value_witness :
  pure_replacer identity /\
  Call [0] (HObject 0) "b" (num 2) {[0]} (Ok (num 2))
    ∈ calls (asyncStringify identity no_functions 6 (VObject 0) NoSpace nested_heap).2 /\
  holds_value nested_heap (VObject 0) (Call [0] (HObject 0) "b" (num 2) {[0]} (Ok (num 2))).
Proof.
  assert (Hin : Call [0] (HObject 0) "b" (num 2) {[0]} (Ok (num 2))
    ∈ calls (asyncStringify identity no_functions 6 (VObject 0) NoSpace nested_heap).2).
  { vm_compute. do 4 right. left. }
  split; [exact identity_pure|]. split; [exact Hin|].
  exact (replacer_context_holds_value identity no_functions 6 (VObject 0) NoSpace nested_heap
           _ identity_pure Hin).
Defined.

(** ** The paths of the recursion *)

Lemma simple_path_length h p : simple_path h p -> length p <= length h.
Proof.
  intros [Hnd Hv]. transitivity (length (seq 0 (length h))); [|by rewrite length_seq].
  apply submseteq_length, NoDup_submseteq; [done|].
  intros r Hr. rewrite Forall_forall in Hv. apply elem_of_seq. specialize (Hv r Hr). lia.
Qed.

Section Paths.
Variable replacer : holder -> string -> value -> heap -> result * heap.
Variable call : fn -> heap -> receiver -> list value -> result.

Lemma transform_nodup fuel : forall path parent key val st,
  visited st = list_to_set path -> NoDup path ->
  wp (transform replacer call fuel path parent key val) st
     (fun _ st' =>
        exists new, calls st' = calls st ++ new /\ Forall (fun c => NoDup (c_path c)) new).
Proof.
  induction fuel as [|n IH]; intros path parent key val st HV Hnd.
  { apply wp_out_of_fuel. exists []. by rewrite app_nil_r. }
  apply wp_transform, wp_bind, wp_call_replacer.
  intros res h' Hrep st1.
  set (Q := fun s : state =>
    exists new, calls s = calls st ++ new /\ Forall (fun c => NoDup (c_path c)) new).
  assert (Hst1 : Q st1).
  { eexists. split; [done|]. by constructor. }
  destruct res as [v|e]; [|exact Hst1].
  destruct v as [| | | | | | | |r]; try (by apply wp_ret); try (by apply wp_throw).
  apply wp_bind, wp_read. destruct (as_function _) as [f|].
  { apply wp_bind, wp_call_method. destruct (call _ _ _ _); [apply wp_ret|]; exact Hst1. }
  apply wp_enter; [intros _; exact Hst1|]. intros Hnotin.
  set (Inv := fun s : state => visited s = {[r]} ∪ visited st /\ Q s).
  assert (Hnd' : NoDup (r :: path)).
  { constructor; [|done]. intros Hin. apply Hnotin. simpl. rewrite HV.
    by apply elem_of_list_to_set. }
  assert (Hchild : forall k v s, Inv s ->
    wp (transform replacer call n (r :: path) (HObject r) k v) s
       (fun o s' => match o with Ret _ => Inv s' | _ => Q s' end)).
  { intros k v s [Hs (new & Hc & HP)].
    assert (HV' : visited s = list_to_set (r :: path)) by (by rewrite Hs, HV).
    eapply wp_conseq; [apply wp_and; [apply transform_trace|by apply IH]|].
    intros o s' [[Hv' _] (new' & Hc' & HP')].
    assert (HQ : Q s').
    { exists (new ++ new'). split; [by rewrite Hc', Hc, app_assoc|]. by apply Forall_app. }
    destruct o; [|done|done]. split; [|done]. by rewrite Hv'. }
  assert (Hdel : forall s, Q s -> Q (visited_delete r s)) by done.
  unfold descend. apply wp_bind, wp_read. simpl. destruct (is_array h' r).
  - apply wp_bind. eapply wp_conseq.
    { apply (wp_array_loop (array_body replacer call n path r) r
               (fun _ _ _ s => Inv s) (fun _ s => Q s)); [by intros ? ? ? []|by intros ? ? ? ? []| |by split].
      intros f i acc s HI Hlt. unfold array_body. apply wp_bind, wp_read.
      eapply wp_conseq; [by apply Hchild|]. by intros [] s'. }
    intros [items|e|] s' HQ; simpl; [apply wp_ret| |]; by apply Hdel.
  - apply wp_bind, wp_read, wp_bind. simpl. eapply wp_conseq.
    { apply (wp_for_each (member_body replacer call n path r)
               (fun _ _ s => Inv s) (fun _ s => Q s)); [by intros ? ? []| |by split].
      intros k l acc s HI. unfold member_body. apply wp_bind, wp_read.
      destruct (has_own _ _ _); [|apply wp_ret; exact HI].
      apply wp_bind, wp_read, wp_bind.
      eapply wp_conseq; [by apply Hchild|]. by intros [] s'. }
    intros [items|e|] s' HQ; simpl; [apply wp_ret| |]; by apply Hdel.
Qed.

Hypothesis Hpure : pure_replacer replacer.
Variable h : heap.

Lemma transform_valid fuel : forall path parent key val st,
  st_heap st = h -> Forall (fun r => r < length h) path ->
  wp (transform replacer call fuel path parent key val) st
     (fun _ st' =>
        st_heap st' = h /\
        exists new, calls st' = calls st ++ new /\
          Forall (fun c => Forall (fun r => r < length h) (c_path c)) new).
Proof.
  induction fuel as [|n IH]; intros path parent key val st Hh Hv.
  { apply wp_out_of_fuel. split; [done|]. exists []. by rewrite app_nil_r. }
  apply wp_transform, wp_bind, wp_call_replacer.
  intros res h' Hrep st1.
  assert (h' = h) as ->.
  { pose proof (Hpure parent key val (st_heap st)) as Hp. rewrite Hrep in Hp.
    simpl in Hp. by rewrite Hp. }
  set (Inv := fun s : state =>
    st_heap s = h /\
    exists new, calls s = calls st ++ new /\
      Forall (fun c => Forall (fun r => r < length h) (c_path c)) new).
  assert (Hst1 : Inv st1).
  { split; [done|]. eexists. split; [done|]. by constructor. }
  destruct res as [v|e]; [|exact Hst1].
  destruct v as [| | | | | | | |r]; try (by apply wp_ret); try (by apply wp_throw).
  apply wp_bind, wp_read. destruct (as_function _) as [f|].
  { apply wp_bind, wp_call_method. destruct (call _ _ _ _); [apply wp_ret|]; exact Hst1. }
  apply wp_enter; [intros _; exact Hst1|]. intros Hnotin.
  assert (Hchild : forall k v s, r < length h -> Inv s ->
    wp (transform replacer call n (r :: path) (HObject r) k v) s (fun _ s' => Inv s')).
  { intros k v s Hr [Hs (new & Hc & HP)].
    eapply wp_conseq; [apply IH; [done|by constructor]|].
    intros o s' [Hs' (new' & Hc' & HP')]. split; [done|].
    exists (new ++ new'). split; [by rewrite Hc', Hc, app_assoc|]. by apply Forall_app. }
  assert (Hdel : forall s, Inv s -> Inv (visited_delete r s)) by done.
  unfold descend. apply wp_bind, wp_read. simpl.
  destruct (is_array h r) eqn:Harr.
  - apply wp_bind. eapply wp_conseq.
    { apply (wp_array_loop (array_body replacer call n path r) r
               (fun _ _ _ s => Inv s) (fun _ s => Inv s)); [done|done| |exact Hst1].
      intros f i acc s HI Hlt. unfold array_body. apply wp_bind, wp_read.
      destruct HI as [Hs HI]. rewrite Hs in Hlt.
      eapply wp_conseq; [apply Hchild; [|by split]|by intros [] s'].
      eapply children_kv_valid. by apply array_child. }
    intros [items|e|] s' HQ; simpl; [apply wp_ret| |]; by apply Hdel.
  - apply wp_bind, wp_read, wp_bind. simpl. eapply wp_conseq.
    { apply (wp_for_each (member_body replacer call n path r)
               (fun l _ s => Inv s /\ forall k, k ∈ l -> k ∈ own_keys h r)
               (fun _ s => Inv s)); [by intros ? ? []| |by split].
      intros k l acc s [HI Hl]. unfold member_body. apply wp_bind, wp_read.
      assert (Hl' : forall k0, k0 ∈ l -> k0 ∈ own_keys h r).
      { intros k0 Hk0. apply Hl. by right. }
      destruct (has_own _ _ _); [|by apply wp_ret].
      apply wp_bind, wp_read, wp_bind.
      eapply wp_conseq; [apply Hchild; [|done]|by intros [] s'].
      eapply children_kv_valid. apply member_child; [done|]. apply Hl. by left. }
    intros [items|e|] s' HQ; simpl; [apply wp_ret| |]; by apply Hdel.
Qed.
End Paths.

(** X2: no container occurs twice on the path of a replacer call, whatever
    the replacer does; and when the replacer leaves the store alone, the
    path holds containers of the store only, so that the depth of the
    recursion at any call is at most the number of objects of the store. *)
Theorem recursion_paths_are_simple replacer call fuel value space h c :
  c ∈ calls (asyncStringify replacer call fuel value space h).2 ->
  NoDup (c_path c) /\
  (pure_replacer replacer -> simple_path h (c_path c) /\ length (c_path c) <= length h).
Proof.
  unfold asyncStringify, bind. fold (initial h).
  pose proof (transform_nodup replacer call fuel [] (HRoot value) "" value (initial h)
                eq_refl (NoDup_nil_2)) as Hnd.
  pose proof (fun Hpure => transform_valid replacer call Hpure h fuel [] (HRoot value) ""
                value (initial h) eq_refl (Forall_nil_2 _)) as Hv.
  unfold wp in Hnd, Hv.
  destruct (transform replacer call fuel [] (HRoot value) "" value (initial h)) as [o st'].
  destruct Hnd as (new & Hc & HP). simpl in Hc, Hv.
  assert (Hin : c ∈ calls st' ->
    NoDup (c_path c) /\
    (pure_replacer replacer -> simple_path h (c_path c) /\ length (c_path c) <= length h)).
  { rewrite Hc. intros Hin. rewrite Forall_forall in HP. split; [by apply HP|].
    intros Hpure. destruct (Hv Hpure) as [_ (new' & Hc' & HP')].
    rewrite Hc in Hc'. simpl in Hc'. subst new'.
    rewrite Forall_forall in HP'.
    assert (Hs : simple_path h (c_path c)) by (split; [by apply HP|by apply HP']).
    split; [done|by apply simple_path_length]. }
  by destruct o.
Qed.

Lemma recursion_paths_are_simple_witness :
  Call [2; 1; 0] (HObject 2) "c" (VObject 1) {[0; 1; 2]} (Ok (VObject 1))
    ∈ calls (asyncStringify identity no_functions 5 (VObject 0) NoSpace deep_cycle_heap).2 /\
  NoDup [2; 1; 0] /\
  (pure_replacer identity ->
   simple_path deep_cycle_heap [2; 1; 0] /\ length [2; 1; 0] <= length deep_cycle_heap).
Proof.
  assert (Hin : Call [2; 1; 0] (HObject 2) "c" (VObject 1) {[0; 1; 2]} (Ok (VObject 1))
    ∈ calls (asyncStringify identity no_functions 5 (VObject 0) NoSpace deep_cycle_heap).2).
  { vm_compute. do 3 right. left. }
  split; [exact Hin|].
  exact (recursion_paths_are_simple identity no_functions 5 (VObject 0) NoSpace deep_cycle_heap
           _ Hin).
Defined.

(** ** Failures *)

Lemma failfast_post_throw {A B} st e s :
  failfast_post st (@Throw A e) s -> failfast_post st (@Throw B e) s.
Proof.
  intros (new & Hc & [Hclean|(good & c & e' & Hn & Hg & Hr & [= ->])]);
    exists new; (split; [done|]); [by left|right]. by exists good, c, e'.
Qed.

Lemma failfast_post_fuel {A B} st s :
  failfast_post st (@OutOfFuel A) s -> failfast_post st (@OutOfFuel B) s.
Proof.
  intros (new & Hc & [Hclean|(good & c & e' & _ & _ & _ & [=])]).
  exists new. split; [done|by left].
Qed.

Section Failfast.
Variable replacer : holder -> string -> value -> heap -> result * heap.
Variable call : fn -> heap -> receiver -> list value -> result.

Lemma transform_failfast fuel : forall path parent key val st,
  wp (transform replacer call fuel path parent key val) st (failfast_post st).
Proof.
  induction fuel as [|n IH]; intros path parent key val st.
  { apply wp_out_of_fuel. exists []. split; [by rewrite app_nil_r|by left]. }
  apply wp_transform, wp_bind, wp_call_replacer.
  intros res h' Hrep st1.
  set (c0 := Call path parent key val (visited st) res).
  assert (Hbad : forall A e, rejection c0 = Some e -> failfast_post st (@Throw A e) st1).
  { intros A e He. exists [c0]. split; [done|]. right. by exists [], c0, e. }
  assert (Hgood : forall A (o : outcome A), rejection c0 = None -> failfast_post st o st1).
  { intros A o He. exists [c0]. split; [done|]. left. by constructor. }
  destruct res as [v|e]; [|by apply Hbad].
  destruct v as [| | | | | | | |r]; try (by apply wp_ret, Hgood); try (by apply wp_throw, Hbad).
  apply wp_bind, wp_read. destruct (as_function _) as [f|].
  { apply wp_bind, wp_call_method. destruct (call _ _ _ _); [apply wp_ret|]; by apply Hgood. }
  apply wp_enter; [intros _; by apply Hgood|]. intros Hnotin.
  set (Inv := fun s : state =>
    exists new, calls s = calls st ++ new /\ Forall (fun c => rejection c = None) new).
  assert (HIQ : forall A (o : outcome A) s, Inv s -> failfast_post st o s).
  { intros A o s (new & Hc & Hg). exists new. split; [done|by left]. }
  assert (Hst1 : Inv {| st_heap := st_heap st1; visited := {[r]} ∪ visited st1;
                        calls := calls st1 |}).
  { exists [c0]. split; [done|]. by constructor. }
  assert (Hchild : forall k v s, Inv s ->
    wp (transform replacer call n (r :: path) (HObject r) k v) s
       (fun o s' => match o with Ret _ => Inv s' | _ => failfast_post st o s' end)).
  { intros k v s (new & Hc & Hg). eapply wp_conseq; [apply IH|].
    intros o s' (new' & Hc' & Hcases).
    assert (Hc'' : calls s' = calls st ++ new ++ new') by (by rewrite Hc', Hc, app_assoc).
    destruct Hcases as [Hg'|(good & c & e & -> & Hg' & Hr & ->)].
    - assert (HI : Inv s') by (exists (new ++ new'); split; [done|by apply Forall_app]).
      destruct o; [done|by apply HIQ|by apply HIQ].
    - exists (new ++ good ++ [c]). split; [done|]. right.
      exists (new ++ good), c, e. rewrite app_assoc. split; [done|].
      split; [by apply Forall_app|done]. }
  assert (Hdel : forall A (o : outcome A) s,
            failfast_post st o s -> failfast_post st o (visited_delete r s)) by done.
  unfold descend. apply wp_bind, wp_read. simpl. destruct (is_array h' r).
  - apply wp_bind. eapply wp_conseq.
    { apply (wp_array_loop (array_body replacer call n path r) r
               (fun _ _ _ s => Inv s) (failfast_post st));
        [by intros; apply HIQ|by intros; apply HIQ| |exact Hst1].
      intros f i acc s HI Hlt. unfold array_body. apply wp_bind, wp_read.
      eapply wp_conseq; [by apply Hchild|].
      intros [] s'; [done|apply failfast_post_throw|apply failfast_post_fuel]. }
    intros [items|e|] s' HQ; simpl.
    + apply wp_ret, Hdel. destruct HQ as (new & Hc & [Hg|(? & ? & ? & _ & _ & _ & [=])]).
      exists new. split; [done|by left].
    + by eapply Hdel, failfast_post_throw.
    + by eapply failfast_post_fuel.
  - apply wp_bind, wp_read, wp_bind. simpl. eapply wp_conseq.
    { apply (wp_for_each (member_body replacer call n path r)
               (fun _ _ s => Inv s) (failfast_post st)); [by intros; apply HIQ| |exact Hst1].
      intros k l acc s HI. unfold member_body. apply wp_bind, wp_read.
      destruct (has_own _ _ _); [|by apply wp_ret].
      apply wp_bind, wp_read, wp_bind.
      eapply wp_conseq; [by apply Hchild|].
      intros [] s'; [done|apply failfast_post_throw|apply failfast_post_fuel]. }
    intros [items|e|] s' HQ; simpl.
    + apply wp_ret, Hdel. destruct HQ as (new & Hc & [Hg|(? & ? & ? & _ & _ & _ & [=])]).
      exists new. split; [done|by left].
    + by eapply Hdel, failfast_post_throw.
    + by eapply failfast_post_fuel.
Qed.

Lemma transform_cause fuel : forall path parent key val st,
  wp (transform replacer call fuel path parent key val) st
     (fun o st' =>
        forall e, o = Throw e ->
          exists c, last (calls st') = Some c /\ cause call (st_heap st') c e).
Proof.
  induction fuel as [|n IH]; intros path parent key val st.
  { by apply wp_out_of_fuel. }
  apply wp_transform, wp_bind, wp_call_replacer.
  intros res h' Hrep st1.
  set (c0 := Call path parent key val (visited st) res).
  assert (Hlast : last (calls st1) = Some c0) by apply last_snoc.
  set (Q := fun (A : Type) (o : outcome A) (s : state) =>
    forall e, o = Throw e -> exists c, last (calls s) = Some c /\ cause call (st_heap s) c e).
  assert (Hthrow : forall A e, cause call h' c0 e -> Q A (Throw e) st1).
  { intros A e Hc e' [= <-]. by exists c0. }
  destruct res as [v|e]; [|by apply (Hthrow resolved)].
  destruct v as [| | | | | | | |r]; try (by apply wp_ret); try (by apply wp_throw, (Hthrow resolved)).
  apply wp_bind, wp_read. simpl. destruct (as_function (lookup_toJSON h' r)) as [f|] eqn:Hf.
  { apply wp_bind, wp_call_method. simpl.
    destruct (call f h' (OfStore (VObject r)) []) eqn:Hcall; [by apply wp_ret|].
    apply (Hthrow resolved). unfold cause. simpl. by rewrite Hf. }
  apply wp_enter.
  { intros Hin. apply (Hthrow resolved). unfold cause. simpl. by rewrite Hf. }
  intros Hnotin.
  assert (Hchild : forall k v s,
    wp (transform replacer call n (r :: path) (HObject r) k v) s
       (fun o s' => match o with Ret _ => True | _ => Q resolved o s' end)).
  { intros k v s. eapply wp_conseq; [apply IH|]. by intros [] s'. }
  assert (Hcast : forall A B e s, Q A (Throw e) s -> Q B (Throw e) (visited_delete r s)).
  { intros A B e s HQ e' [= <-]. by apply HQ. }
  unfold descend. apply wp_bind, wp_read. simpl. destruct (is_array h' r).
  - apply wp_bind. eapply wp_conseq.
    { apply (wp_array_loop (array_body replacer call n path r) r
               (fun _ _ _ s => True) (Q _)); [done|done| |done].
      intros f i acc s _ Hlt. unfold array_body. apply wp_bind, wp_read.
      eapply wp_conseq; [by apply Hchild|].
      intros [] s'; [done| |done]. intros HQ e' [= <-]. by apply HQ. }
    intros [items|e|] s' HQ; simpl; [by apply wp_ret| |done]. by eapply Hcast.
  - apply wp_bind, wp_read, wp_bind. simpl. eapply wp_conseq.
    { apply (wp_for_each (member_body replacer call n path r)
               (fun _ _ s => True) (Q _)); [done| |done].
      intros k l acc s _. unfold member_body. apply wp_bind, wp_read.
      destruct (has_own _ _ _); [|by apply wp_ret].
      apply wp_bind, wp_read, wp_bind.
      eapply wp_conseq; [by apply Hchild|].
      intros [] s'; [done| |done]. intros HQ e' [= <-]. by apply HQ. }
    intros [items|e|] s' HQ; simpl; [by apply wp_ret| |done]. by eapply Hcast.
Qed.
End Failfast.

(** X3: the run stops at the first replacer call that is rejected.  When a
    replacer call of a top-level call throws, or returns a BigInt, the
    top-level call fails with that exception, or with the TypeError of the
    BigInt, and the rejected call is the last one made: no sibling and no
    ancestor's later child is handed to the replacer. *)
Theorem rejected_call_ends_run replacer call fuel value space h c e :
  c ∈ calls (asyncStringify replacer call fuel value space h).2 ->
  rejection c = Some e ->
  (asyncStringify replacer call fuel value space h).1 = Throw e /\
  last (calls (asyncStringify replacer call fuel value space h).2) = Some c.
Proof.
  unfold asyncStringify, bind. fold (initial h).
  pose proof (transform_failfast replacer call fuel [] (HRoot value) "" value (initial h)) as H.
  unfold wp in H.
  destruct (transform replacer call fuel [] (HRoot value) "" value (initial h)) as [o st'].
  destruct H as (new & Hc & Hcases). simpl in Hc, Hcases.
  assert (Hin : c ∈ calls st' -> rejection c = Some e ->
                o = Throw e /\ last (calls st') = Some c).
  { rewrite Hc. intros Hin He.
    destruct Hcases as [Hg|(good & c' & e' & -> & Hg & Hr & ->)].
    - rewrite Forall_forall in Hg. specialize (Hg c Hin). congruence.
    - apply elem_of_app in Hin as [Hin|Hin].
      + rewrite Forall_forall in Hg. specialize (Hg c Hin). congruence.
      + apply list_elem_of_singleton in Hin as ->. rewrite last_snoc.
        split; [congruence|done]. }
  destruct o as [t|e0|]; simpl; intros H1 H2; destruct (Hin H1 H2) as [Ho Hl];
    try done. by inversion Ho.
Qed.

Lemma rejected_call_ends_run_witness :
  Call [0] (HObject 0) "a" (VObject 1) {[0]} (Err (Thrown (VString "boom")))
    ∈ calls (asyncStringify throwing_at_a no_functions 5 (VObject 0) NoSpace nested_heap).2 /\
  rejection (Call [0] (HObject 0) "a" (VObject 1) {[0]} (Err (Thrown (VString "boom"))))
    = Some (Thrown (VString "boom")) /\
  (asyncStringify throwing_at_a no_functions 5 (VObject 0) NoSpace nested_heap).1
    = Throw (Thrown (VString "boom")) /\
  last (calls (asyncStringify throwing_at_a no_functions 5 (VObject 0) NoSpace nested_heap).2)
    = Some (Call [0] (HObject 0) "a" (VObject 1) {[0]} (Err (Thrown (VString "boom")))).
Proof.
  assert (Hin : Call [0] (HObject 0) "a" (VObject 1) {[0]} (Err (Thrown (VString "boom")))
    ∈ calls (asyncStringify throwing_at_a no_functions 5 (VObject 0) NoSpace nested_heap).2).
  { vm_compute. right. left. }
  split; [exact Hin|]. split; [reflexivity|].
  exact (rejected_call_ends_run throwing_at_a no_functions 5 (VObject 0) NoSpace nested_heap
           _ _ Hin eq_refl).
Defined.

(** *** The exceptions of the serializer *)

Lemma ofold_throw_inv {A B} (f : B -> A -> outcome B) l e : forall acc,
  ofold f l acc = Throw e -> exists acc' x, x ∈ l /\ f acc' x = Throw e.
Proof.
  induction l as [|x l IH]; intros acc; simpl; [done|].
  destruct (f acc x) as [acc'| |] eqn:E; simpl; [|intros [= <-]|done].
  - intros Hgo. destruct (IH _ Hgo) as (a & y & Hy & Hf). exists a, y. split; [by right|done].
  - exists acc, x. split; [by left|done].
Qed.

Lemma render_elements_throw_inv render ts e : forall i acc,
  render_elements render i ts acc = Throw e -> exists k t, t ∈ ts /\ render k t = Throw e.
Proof.
  induction ts as [|t ts IH]; intros i acc; simpl; [done|].
  destruct (render (pretty i) t) as [j| |] eqn:E; simpl; [|intros [= <-]|done].
  - intros Hgo. destruct (IH _ _ Hgo) as (k & t' & Ht & Hr). exists k, t'. split; [by right|done].
  - exists (pretty i), t. split; [by left|done].
Qed.

Lemma render_members_throw_inv render ps e : forall acc,
  render_members render ps acc = Throw e -> exists k t, (k, t) ∈ ps /\ render k t = Throw e.
Proof.
  induction ps as [|[k t] ps IH]; intros acc; simpl; [done|].
  destruct (render k t) as [j| |] eqn:E; simpl; [|intros [= <-]|done].
  - intros Hgo. destruct (IH _ Hgo) as (k' & t' & Ht & Hr). exists k', t'. split; [by right|done].
  - exists k, t. split; [by left|done].
Qed.

Section Serializer_failures.
Variable call : fn -> heap -> receiver -> list value -> result.
Variable h : heap.

Lemma hook_step_failures key v e :
  hook_step call h key v = Throw e -> ser_failure call h e.
Proof.
  unfold hook_step. destruct v as [| | | | | | | |r]; try done.
  destruct (lookup_toJSON h r) as [| | | | | | |f|]; try done.
  destruct (call f h (OfStore (VObject r)) [VString key]) eqn:E; [done|].
  intros [= <-]. right. right. by exists f, (OfStore (VObject r)), key.
Qed.

Lemma ser_value_failures fuel : forall stack v e,
  ser_value call h fuel stack v = Throw e -> ser_failure call h e.
Proof.
  induction fuel as [|n IH]; intros stack v e; [done|].
  destruct v as [| | |[]| | | | |r]; try done; simpl.
  { intros [= <-]. by left. }
  case_bool_decide; [intros [= <-]; right; by left|].
  destruct (is_array h r).
  - destruct (ofold _ _ _) as [js| |] eqn:E; simpl; [done| |done].
    intros [= <-]. apply ofold_throw_inv in E as (acc & i & _ & Hstep).
    destruct (hook_step call h (pretty i) (array_get h r i)) as [v'| |] eqn:Hh; simpl in Hstep.
    + destruct (ser_value call h n (r :: stack) v') eqn:Hs; simpl in Hstep; try done.
      injection Hstep as <-. by eapply IH.
    + injection Hstep as <-. by eapply hook_step_failures.
    + done.
  - destruct (ofold _ _ _) as [js| |] eqn:E; simpl; [done| |done].
    intros [= <-]. apply ofold_throw_inv in E as (acc & k & _ & Hstep).
    destruct (hook_step call h k (get_prop h r k)) as [v'| |] eqn:Hh; simpl in Hstep.
    + destruct (ser_value call h n (r :: stack) v') eqn:Hs; simpl in Hstep; try done.
      injection Hstep as <-. by eapply IH.
    + injection Hstep as <-. by eapply hook_step_failures.
    + done.
Qed.

Lemma resolved_to_json_failures fuel t : forall key e,
  resolved_to_json call h fuel key t = Throw e -> ser_failure call h e.
Proof.
  induction t as [v|ts IH|ps IH] using resolved_tree_ind; intros key e; simpl.
  - unfold SerializeJSONProperty.
    destruct (hook_step call h key v) as [v'| |] eqn:Hh; simpl; [|intros [= <-]|done].
    + apply ser_value_failures.
    + by eapply hook_step_failures.
  - destruct (render_elements _ 0 ts []) as [js| |] eqn:E; simpl; [done| |done].
    intros [= <-]. apply render_elements_throw_inv in E as (k & t & Ht & Hr).
    rewrite Forall_forall in IH. by eapply IH.
  - destruct (record_hook ps) as [f|].
    + destruct (call f h (Fresh ps) [VString key]) eqn:E.
      * apply ser_value_failures.
      * intros [= <-]. right. right. by exists f, (Fresh ps), key.
    + destruct (render_members _ ps []) as [ms| |] eqn:E; simpl; [done| |done].
      intros [= <-]. apply render_members_throw_inv in E as (k & t & Ht & Hr).
      rewrite Forall_forall in IH. by eapply (IH (k, t)).
Qed.

Lemma JSON_stringify_failures fuel t space e :
  JSON_stringify call h fuel t space = Throw e -> ser_failure call h e.
Proof.
  unfold JSON_stringify.
  destruct (resolved_to_json call h fuel "" t) eqn:E; simpl; [done| |done].
  intros [= <-]. by eapply resolved_to_json_failures.
Qed.
End Serializer_failures.



(** ** The error of a cycle is raised for cycles only *)

Section Cycle_soundness.
Variable replacer : holder -> string -> value -> heap -> result * heap.
Variable call : fn -> heap -> receiver -> list value -> result.
Hypothesis Hpure : pure_replacer replacer.
Hypothesis Hsame : no_substitution replacer.
Variable h : heap.

Lemma transform_circular fuel : forall path parent key val st,
  st_heap st = h ->
  wp (transform replacer call fuel path parent key val) st
     (fun o _ =>
        o = Throw (TypeError msg_circular) ->
        on_cycle h (visited st) val \/
        thrown_by_user replacer call h (TypeError msg_circular)).
Proof.
  induction fuel as [|n IH]; intros path parent key val st Hh.
  { by apply wp_out_of_fuel. }
  apply wp_transform, wp_bind, wp_call_replacer.
  intros res h' Hrep st1.
  assert (h' = h) as ->.
  { pose proof (Hpure parent key val (st_heap st)) as Hp. rewrite Hrep in Hp.
    simpl in Hp. by rewrite Hp. }
  set (Q := fun (A : Type) (o : outcome A) (s : state) =>
    o = Throw (TypeError msg_circular) ->
    on_cycle h (visited st) val \/ thrown_by_user replacer call h (TypeError msg_circular)).
  destruct res as [v|e].
  2:{ intros [= ->]. right. right. exists parent, key, val. by rewrite Hh in Hrep; rewrite Hrep. }
  destruct v as [| | | | | | | |r]; try (by apply wp_ret); try (by apply wp_throw).
  assert (Hval : val = VObject r).
  { apply (Hsame parent key val (st_heap st) r). by rewrite Hrep. }
  apply wp_bind, wp_read. simpl. destruct (as_function (lookup_toJSON h r)) as [f|] eqn:Hf.
  { apply wp_bind, wp_call_method. simpl.
    destruct (call f h (OfStore (VObject r)) []) eqn:Hcall; [by apply wp_ret|].
    intros [= ->]. right. left. by exists f, (OfStore (VObject r)). }
  apply wp_enter.
  { intros Hin _. left. rewrite Hval. by apply cycle_closes. }
  intros Hnotin.
  set (Inv := fun s : state => st_heap s = h /\ visited s = {[r]} ∪ visited st).
  assert (Hchild : forall k v s, (k, v) ∈ children_kv h r -> Inv s ->
    wp (transform replacer call n (r :: path) (HObject r) k v) s
       (fun o s' => match o with Ret _ => Inv s' | _ => Q resolved o s' end)).
  { intros k v s Hin [Hs Hv].
    eapply wp_conseq; [apply wp_and; [by apply child_frame|by apply IH]|].
    intros o s' [Hframe Hcyc]. destruct o as [t|e|]; simpl.
    - destruct (Hframe t eq_refl) as [Hs' Hv']. split; congruence.
    - intros He. destruct (Hcyc He) as [Hc|Hu]; [left|by right].
      rewrite Hval. apply (cycle_below h _ r k v); [done|done|done|]. by rewrite <- Hv.
    - done. }
  assert (Hcast : forall A B e s, Q A (Throw e) s -> Q B (Throw e) (visited_delete r s)).
  { intros A B e s HQ [= ->]. by apply HQ. }
  unfold descend. apply wp_bind, wp_read. simpl. destruct (is_array h r) eqn:Harr.
  - apply wp_bind. eapply wp_conseq.
    { apply (wp_array_loop (array_body replacer call n path r) r
               (fun _ _ _ s => Inv s) (Q _)); [done|done| |done].
      intros f i acc s HI Hlt. unfold array_body. apply wp_bind, wp_read.
      destruct HI as [Hs HI]. rewrite Hs in Hlt |- *.
      eapply wp_conseq; [apply Hchild; [by apply array_child|done]|].
      intros [] s'; [done| |done]. intros HQ [= ->]. by apply HQ. }
    intros [items|e|] s' HQ; simpl; [by apply wp_ret| |done]. by eapply Hcast.
  - apply wp_bind, wp_read, wp_bind. simpl. eapply wp_conseq.
    { apply (wp_for_each (member_body replacer call n path r)
               (fun l _ s => Inv s /\ forall k, k ∈ l -> k ∈ own_keys h r) (Q _));
        [done| |done].
      intros k l acc s [HI Hl]. unfold member_body. apply wp_bind, wp_read.
      assert (Hl' : forall k0, k0 ∈ l -> k0 ∈ own_keys h r).
      { intros k0 Hk0. apply Hl. by right. }
      destruct (has_own _ _ _); [|by apply wp_ret].
      apply wp_bind, wp_read, wp_bind. destruct HI as [Hs HI]. rewrite Hs.
      eapply wp_conseq; [apply Hchild; [apply member_child; [done|apply Hl; by left]|done]|].
      intros [] s'; [done| |done]. intros HQ [= ->]. by apply HQ. }
    intros [items|e|] s' HQ; simpl; [by apply wp_ret| |done]. by eapply Hcast.
Qed.
End Cycle_soundness.

(** X5: the error of a cycle is raised for cycles only.  When the replacer
    leaves the store alone and returns no container but the one it was
    given, and the engine fails with the TypeError of a circular
    structure, then some container without a [toJSON] method lies below
    itself on a path from the value, unless user code threw that very
    exception.  A container shared by two siblings is not a cycle. *)
Theorem circular_error_means_cycle replacer call fuel value h :
  pure_replacer replacer ->
  no_substitution replacer ->
  (transform replacer call fuel [] (HRoot value) "" value (initial h)).1
    = Throw (TypeError msg_circular) ->
  on_cycle h ∅ value \/ thrown_by_user replacer call h (TypeError msg_circular).
Proof.
  intros Hpure Hsame.
  exact (transform_circular replacer call Hpure Hsame h fuel [] (HRoot value) "" value
           (initial h) eq_refl).
Qed.

Lemma circular_error_means_cycle_witness :
  pure_replacer identity /\
  no_substitution identity /\
  (transform identity no_functions 5 [] (HRoot (VObject 0)) "" (VObject 0)
     (initial deep_cycle_heap)).1 = Throw (TypeError msg_circular) /\
  (on_cycle deep_cycle_heap ∅ (VObject 0) \/
   thrown_by_user identity no_functions deep_cycle_heap (TypeError msg_circular)).
Proof.
  assert (Hsame : no_substitution identity).
  { intros parent key val h r Hres. by inversion Hres. }
  assert (Hthrow : (transform identity no_functions 5 [] (HRoot (VObject 0)) "" (VObject 0)
                      (initial deep_cycle_heap)).1 = Throw (TypeError msg_circular))
    by reflexivity.
  split; [exact identity_pure|]. split; [exact Hsame|]. split; [exact Hthrow|].
  exact (circular_error_means_cycle identity no_functions 5 (VObject 0) deep_cycle_heap
           identity_pure Hsame Hthrow).
Defined.

(** ** The keys of a resolved record *)

Section Record_keys.
Variable replacer : holder -> string -> value -> heap -> result * heap.
Variable call : fn -> heap -> receiver -> list value -> result.

Lemma descend_keys n path r st :
  is_array (st_heap st) r = false ->
  wp (descend replacer call n path r) st
     (fun o _ =>
        forall t, o = Ret t ->
          exists ps, t = RObj ps /\
            sublist ps.*1 (own_keys (st_heap st) r) /\
            (pure_replacer replacer -> ps.*1 = own_keys (st_heap st) r)).
Proof.
  intros Harr. unfold descend. apply wp_bind, wp_read. rewrite Harr.
  set (h0 := st_heap st). set (ks := own_keys h0 r).
  apply wp_bind, wp_read, wp_bind. fold h0. fold ks. eapply wp_conseq.
  { apply (wp_for_each (member_body replacer call n path r)
             (fun l acc s =>
                exists seen, ks = seen ++ l /\ sublist acc.*1 seen /\
                  (pure_replacer replacer -> st_heap s = h0 /\ acc.*1 = seen))
             (fun o _ =>
                forall ps, o = Ret ps ->
                  sublist ps.*1 ks /\ (pure_replacer replacer -> ps.*1 = ks))).
    - intros acc s (seen & Hks & Hsub & Hp) ps [= <-].
      rewrite app_nil_r in Hks. subst seen. split; [done|]. intros Hpure. by apply Hp.
    - intros k l acc s (seen & Hks & Hsub & Hp). unfold member_body. apply wp_bind, wp_read.
      assert (Hfresh : k ∉ acc.*1).
      { intros Hin. pose proof (NoDup_own_keys h0 r) as Hnd. fold ks in Hnd.
        rewrite Hks in Hnd. apply NoDup_app in Hnd as (_ & Hdisj & _).
        apply (Hdisj k); [|by left]. by eapply sublist_submseteq, elem_of_submseteq in Hsub. }
      assert (Hks' : ks = (seen ++ [k]) ++ l) by (by rewrite <- app_assoc).
      destruct (has_own (st_heap s) r k) eqn:Hown.
      + apply wp_bind, wp_read, wp_bind. eapply wp_conseq; [apply transform_block|].
        intros o s' [Hh' _]. destruct o as [t| |]; [|done|done].
        apply wp_ret. exists (seen ++ [k]). split; [done|].
        rewrite prop_set_fresh by done. rewrite fmap_app. simpl.
        split; [by apply sublist_app|].
        intros Hpure. destruct (Hp Hpure) as [Hs Hacc]. split; [by rewrite Hh'|by rewrite Hacc].
      + apply wp_ret. exists (seen ++ [k]). split; [done|].
        split; [by apply sublist_inserts_r|].
        intros Hpure. destruct (Hp Hpure) as [Hs Hacc]. rewrite Hs in Hown.
        rewrite has_own_own_keys in Hown; [done|]. fold ks. rewrite Hks. set_solver.
    - exists []. split; [done|]. split; [done|]. done. }
  intros [ps|e|] s' HQ; [|done|done].
  apply wp_ret. intros t [= <-]. exists ps. split; [done|]. by apply HQ.
Qed.
End Record_keys.



(** ** One replacer call per node *)

Section Count.
Variable replacer : holder -> string -> value -> heap -> result * heap.
Variable call : fn -> heap -> receiver -> list value -> result.

Lemma transform_count fuel : forall path parent key val st,
  wp (transform replacer call fuel path parent key val) st
     (fun o st' =>
        forall t, o = Ret t ->
          exists new, calls st' = calls st ++ new /\ length new = rsize t).
Proof.
  induction fuel as [|n IH]; intros path parent key val st.
  { by apply wp_out_of_fuel. }
  apply wp_transform, wp_bind, wp_call_replacer.
  intros res h' Hrep st1.
  set (c0 := Call path parent key val (visited st) res).
  assert (Hleaf : forall v t, Ret (RVal v) = Ret t ->
            exists new, calls st1 = calls st ++ new /\ length new = rsize t).
  { intros v t [= <-]. by exists [c0]. }
  destruct res as [v|e]; [|done].
  destruct v as [| | | | | | | |r]; try (by apply wp_ret, Hleaf); try (by apply wp_throw).
  apply wp_bind, wp_read. destruct (as_function _) as [f|].
  { apply wp_bind, wp_call_method. destruct (call _ _ _ _); [by apply wp_ret, Hleaf|done]. }
  apply wp_enter; [done|]. intros Hnotin.
  assert (Hnode : forall s new, calls s = calls st1 ++ new ->
            calls (visited_delete r s) = calls st ++ c0 :: new).
  { intros s new Hc. simpl. rewrite Hc. simpl. by rewrite <- app_assoc. }
  unfold descend. apply wp_bind, wp_read. simpl. destruct (is_array h' r).
  - apply wp_bind. eapply wp_conseq.
    { apply (wp_array_loop (array_body replacer call n path r) r
               (fun _ _ acc s =>
                  exists new, calls s = calls st1 ++ new /\
                    length new = list_sum (map rsize acc))
               (fun o s =>
                  forall ts, o = Ret ts ->
                    exists new, calls s = calls st1 ++ new /\
                      length new = list_sum (map rsize ts))).
      - done.
      - by intros f i acc s HI _ ts [= <-].
      - intros f i acc s (new & Hc & Hl) Hlt. unfold array_body. apply wp_bind, wp_read.
        eapply wp_conseq; [apply IH|]. intros [t| |] s' Ht; [|done|done].
        destruct (Ht t eq_refl) as (new' & Hc' & Hl'). exists (new ++ new').
        split; [by rewrite Hc', Hc, app_assoc|].
        rewrite length_app, map_app, list_sum_app. simpl. lia.
      - exists []. by rewrite app_nil_r. }
    intros [ts| |] s' HQ; [|done|done]. apply wp_ret. intros t [= <-].
    destruct (HQ ts eq_refl) as (new & Hc & Hl).
    exists (c0 :: new). split; [by apply Hnode|]. simpl. lia.
  - apply wp_bind, wp_read, wp_bind. simpl.
    set (ks := own_keys h' r). eapply wp_conseq.
    { apply (wp_for_each (member_body replacer call n path r)
               (fun l acc s =>
                  exists seen new, ks = seen ++ l /\
                    (forall k, k ∈ acc.*1 -> k ∈ seen) /\
                    calls s = calls st1 ++ new /\
                    length new = list_sum (map (fun p => rsize (snd p)) acc))
               (fun o s =>
                  forall ps, o = Ret ps ->
                    exists new, calls s = calls st1 ++ new /\
                      length new = list_sum (map (fun p => rsize (snd p)) ps))).
      - intros acc s (seen & new & _ & _ & Hc & Hl) ps [= <-]. by exists new.
      - intros k l acc s (seen & new & Hks & Hsub & Hc & Hl).
        unfold member_body. apply wp_bind, wp_read.
        assert (Hfresh : k ∉ acc.*1).
        { intros Hin. pose proof (NoDup_own_keys h' r) as Hnd. fold ks in Hnd.
          rewrite Hks in Hnd. apply NoDup_app in Hnd as (_ & Hdisj & _).
          apply (Hdisj k); [by apply Hsub|by left]. }
        assert (Hks' : ks = (seen ++ [k]) ++ l) by (by rewrite <- app_assoc).
        destruct (has_own _ _ _).
        + apply wp_bind, wp_read, wp_bind. eapply wp_conseq; [apply IH|].
          intros [t| |] s' Ht; [|done|done].
          destruct (Ht t eq_refl) as (new' & Hc' & Hl'). apply wp_ret.
          exists (seen ++ [k]), (new ++ new'). split; [done|].
          rewrite prop_set_fresh by done. split; [|split].
          * intros k0. rewrite fmap_app. set_solver.
          * by rewrite Hc', Hc, app_assoc.
          * rewrite length_app, map_app, list_sum_app. simpl. lia.
        + apply wp_ret. exists (seen ++ [k]), new. split; [done|]. split; [|done].
          intros k0 Hk0. apply elem_of_app. left. by apply Hsub.
      - exists [], []. split; [done|]. split; [by intros k ?%elem_of_nil|].
        split; [by rewrite app_nil_r|done]. }
    intros [ps| |] s' HQ; [|done|done]. apply wp_ret. intros t [= <-].
    destruct (HQ ps eq_refl) as (new & Hc & Hl).
    exists (c0 :: new). split; [by apply Hnode|]. simpl. lia.
Qed.
End Count.



(** ** The engine writes nothing to the store *)

Section Store.
Variable replacer : holder -> string -> value -> heap -> result * heap.
Variable call : fn -> heap -> receiver -> list value -> result.
Variable P : heap -> Prop.
Hypothesis HP : forall parent key val h, P h -> P (replacer parent key val h).2.

Lemma transform_store fuel : forall path parent key val st,
  P (st_heap st) ->
  wp (transform replacer call fuel path parent key val) st (fun _ st' => P (st_heap st')).
Proof.
  induction fuel as [|n IH]; intros path parent key val st Hst.
  { by apply wp_out_of_fuel. }
  apply wp_transform, wp_bind, wp_call_replacer.
  intros res h' Hrep st1.
  assert (Hst1 : P h').
  { pose proof (HP parent key val (st_heap st) Hst) as H. by rewrite Hrep in H. }
  destruct res as [v|e]; [|done].
  destruct v as [| | | | | | | |r]; try (by apply wp_ret); try (by apply wp_throw).
  apply wp_bind, wp_read. destruct (as_function _) as [f|].
  { apply wp_bind, wp_call_method. by destruct (call _ _ _ _); [apply wp_ret|]. }
  apply wp_enter; [done|]. intros Hnotin.
  unfold descend. apply wp_bind, wp_read. simpl. destruct (is_array h' r).
  - apply wp_bind. eapply wp_conseq.
    { apply (wp_array_loop (array_body replacer call n path r) r
               (fun _ _ _ s => P (st_heap s)) (fun _ s => P (st_heap s))); [done|done| |done].
      intros f i acc s HI Hlt. unfold array_body. apply wp_bind, wp_read.
      eapply wp_conseq; [by apply IH|]. by intros [] s'. }
    intros [items|e|] s' HQ; simpl; [by apply wp_ret|done|done].
  - apply wp_bind, wp_read, wp_bind. simpl. eapply wp_conseq.
    { apply (wp_for_each (member_body replacer call n path r)
               (fun _ _ s => P (st_heap s)) (fun _ s => P (st_heap s))); [done| |done].
      intros k l acc s HI. unfold member_body. apply wp_bind, wp_read.
      destruct (has_own _ _ _); [|by apply wp_ret].
      apply wp_bind, wp_read, wp_bind.
      eapply wp_conseq; [by apply IH|]. by intros [] s'. }
    intros [items|e|] s' HQ; simpl; [by apply wp_ret|done|done].
Qed.
End Store.



(** ** Symbols *)

Section Unwritten.
Variable call : fn -> heap -> receiver -> list value -> result.
Variable h : heap.

Lemma render_unwritten fuel key t :
  unwritten t = true -> resolved_to_json call h (S fuel) key t = Ret None.
Proof. by destruct t as [[]| |]. Qed.

Lemma render_members_written fuel ps : forall acc,
  render_members (resolved_to_json call h (S fuel)) ps acc =
  render_members (resolved_to_json call h (S fuel)) (List.filter written_member ps) acc.
Proof.
  induction ps as [|[k t] ps IH]; intros acc; [done|].
  cbn [List.filter]. unfold written_member at 1. cbn [snd].
  destruct (unwritten t) eqn:E; cbn [negb render_members].
  - rewrite render_unwritten by done. cbn [obind push_member]. apply IH.
  - destruct (resolved_to_json call h (S fuel) k t); cbn [obind]; [apply IH|done|done].
Qed.

Lemma render_elements_unwritten fuel ts : forall i acc,
  render_elements (resolved_to_json call h (S fuel)) i ts acc =
  render_elements (resolved_to_json call h (S fuel)) i (null_if_unwritten <$> ts) acc.
Proof.
  induction ts as [|t ts IH]; intros i acc; [done|].
  cbn [fmap list_fmap render_elements]. unfold null_if_unwritten at 1.
  destruct (unwritten t) eqn:E.
  - rewrite render_unwritten by done. cbn [obind]. apply IH.
  - destruct (resolved_to_json call h (S fuel) (pretty i) t); cbn [obind]; [apply IH|done|done].
Qed.
End Unwritten.

Lemma record_hook_written ps : record_hook (List.filter written_member ps) = None.
Proof.
  unfold record_hook. induction ps as [|[k t] ps IH]; [done|].
  cbn [List.filter]. unfold written_member at 1. cbn [snd].
  destruct (unwritten t) eqn:E; cbn [negb]; [done|]. cbn [assoc].
  case_bool_decide; [|done]. by destruct t as [[]| |].
Qed.



(** ** Agreement with [JSON.stringify] under a replacer *)

Lemma bind_run {S A B} (m : M S A) (k : A -> M S B) s o s' :
  m s = (o, s') ->
  bind m k s =
    match o with
    | Ret a => k a s'
    | Throw e => (Throw e, s')
    | OutOfFuel => (OutOfFuel, s')
    end.
Proof. unfold bind. intros ->. by destruct o. Qed.

Lemma for_each_app {S A B} (f : B -> A -> M S B) l1 l2 : forall acc s,
  for_each f (l1 ++ l2) acc s = bind (for_each f l1 acc) (for_each f l2) s.
Proof.
  induction l1 as [|x l1 IH]; intros acc s; simpl; [done|].
  unfold bind. destruct (f acc x s) as [[a|e|] s1]; [|done|done].
  by rewrite IH.
Qed.

Lemma SerializeJSONProperty_with_unfold replacer call n stack this key v h :
  SerializeJSONProperty_with replacer call (S n) stack this key v h =
  (let* v1 := toJSON_step call key v in
   let* v2 := replacer_step replacer this key v1 in
   serialize_replaced replacer call n stack v2) h.
Proof. reflexivity. Qed.

Section Agreement.
Variable replacer : holder -> string -> value -> heap -> result * heap.
Variable call : fn -> heap -> receiver -> list value -> result.
Hypothesis Hpure : pure_replacer replacer.
Hypothesis Hno : plants_no_hook replacer.
Variable h : heap.
Hypothesis Hplain : plain_store h.
Variable G : nat.
Hypothesis HG : length h < G.

Lemma toJSON_step_run key v : toJSON_step call key v h = (Ret v, h).
Proof.
  unfold toJSON_step. rewrite hook_step_free; [done|]. destruct v; try done. apply Hplain.
Qed.

Lemma replacer_step_run this key v :
  replacer_step replacer this key v h =
    (match (replacer this key v h).1 with Ok w => Ret w | Err e => Throw e end, h).
Proof.
  unfold replacer_step. pose proof (Hpure this key v h) as Hp.
  destruct (replacer this key v h) as [[w|e] h']; simpl in *; by subst.
Qed.

Lemma reference_run n stack this key v :
  SerializeJSONProperty_with replacer call (S n) stack this key v h =
    match (replacer this key v h).1 with
    | Ok w => serialize_replaced replacer call n stack w h
    | Err e => (Throw e, h)
    end.
Proof.
  rewrite SerializeJSONProperty_with_unfold.
  rewrite (bind_run _ _ _ _ _ (toJSON_step_run key v)).
  rewrite (bind_run _ _ _ _ _ (replacer_step_run this key v)).
  by destruct (replacer this key v h).1.
Qed.

Lemma leaf_run n stack key w :
  is_object w = false -> (forall z, w <> VBigInt z) ->
  serialize_replaced replacer call n stack w h = (resolved_to_json call h G key (RVal w), h).
Proof.
  destruct G as [|g]; [lia|]. by destruct w as [| | |[]| | | | |].
Qed.

Lemma container_run n stack r :
  r ∉ stack ->
  serialize_replaced replacer call n stack (VObject r) h =
    if is_array h r then
      bind (for_each (element_step_with replacer call n stack r)
              (seq 0 (array_length h r)) [])
           (fun js => ret (Some (JArray js))) h
    else
      bind (for_each (member_step_with replacer call n stack r) (own_keys h r) [])
           (fun ms => ret (Some (JObject ms))) h.
Proof.
  intros Hn. cbn [serialize_replaced]. rewrite bool_decide_eq_false_2 by done.
  unfold bind at 1, get; simpl. by destruct (is_array h r).
Qed.

Lemma element_step_with_run n stack r acc i o :
  SerializeJSONProperty_with replacer call n (r :: stack) (HObject r) (pretty i)
    (array_get h r i) h = (o, h) ->
  element_step_with replacer call n stack r acc i h =
    (let+ j := o in Ret (push_element acc j), h).
Proof.
  intros H. unfold element_step_with, get. unfold bind at 1.
  rewrite (bind_run _ _ _ _ _ H). by destruct o.
Qed.

Lemma member_step_with_run n stack r acc k o :
  SerializeJSONProperty_with replacer call n (r :: stack) (HObject r) k
    (get_prop h r k) h = (o, h) ->
  member_step_with replacer call n stack r acc k h =
    (let+ j := o in Ret (push_member acc k j), h).
Proof.
  intros H. unfold member_step_with, get. unfold bind at 1.
  rewrite (bind_run _ _ _ _ _ H). by destruct o.
Qed.

(** The engine against the reference run on the same node: the resolved
    tree renders as the reference serializes, and where the engine fails
    the reference fails. *)
Lemma transform_refines fuel : forall m F path parent key val st stack,
  st_heap st = h -> visited st = list_to_set stack ->
  unvisited h (visited st) <= m -> m + width h + 2 <= fuel -> m < F ->
  wp (transform replacer call fuel path parent key val) st
     (fun o st' =>
        st_heap st' = h /\ visited st' = visited st /\
        match o with
        | Ret t =>
            SerializeJSONProperty_with replacer call F stack parent key val h
              = (resolved_to_json call h G key t, h) /\
            (forall f, t = RVal (VFunction f) ->
               (replacer parent key val h).1 = Ok (VFunction f))
        | Throw _ =>
            exists e,
              SerializeJSONProperty_with replacer call F stack parent key val h
                = (Throw e, h)
        | OutOfFuel => False
        end).
Proof.
  induction fuel as [|n IH]; intros m F path parent key val st stack Hh Hv Hm Hfuel HF; [lia|].
  destruct F as [|F]; [lia|].
  apply wp_transform, wp_bind, wp_call_replacer. intros res h' Hrep st1.
  assert (h' = h) as ->.
  { pose proof (Hpure parent key val (st_heap st)) as Hp. rewrite Hrep in Hp.
    simpl in Hp. by rewrite Hp. }
  rewrite Hh in Hrep. rewrite reference_run, Hrep. cbn [fst].
  set (R := resolved_to_json call h G).
  assert (HR : forall key t, settled (R key t)).
  { intros k t. by apply resolved_to_json_total. }
  destruct res as [w|e]; [|split; [done|]; split; [done|]; by eexists].
  assert (Hleaf : is_object w = false -> (forall z, w <> VBigInt z) ->
            st_heap st1 = h /\ visited st1 = visited st /\
            serialize_replaced replacer call F stack w h = (R key (RVal w), h) /\
            (forall f, RVal w = RVal (VFunction f) -> Ok w = Ok (VFunction f))).
  { intros Hobj Hbig. split; [done|]. split; [done|]. split; [by apply leaf_run|].
    by intros f [= ->]. }
  destruct w as [| | | | | | | |r]; try (by apply wp_ret, Hleaf).
  { apply wp_throw. split; [done|]. split; [done|]. by eexists. }
  set (ref := serialize_replaced replacer call F stack (VObject r) h).
  apply wp_bind, wp_read. simpl. rewrite (Hplain r).
  apply wp_enter.
  { simpl. intros Hin. split; [done|]. split; [done|]. exists (TypeError msg_circular).
    subst ref. cbn [serialize_replaced]. rewrite bool_decide_eq_true_2; [done|].
    rewrite Hv in Hin. by apply elem_of_list_to_set in Hin. }
  simpl. intros Hnotin.
  assert (Hnotstack : r ∉ stack).
  { intros Hin. apply Hnotin. rewrite Hv. by apply elem_of_list_to_set. }
  assert (Href : ref =
    if is_array h r then
      bind (for_each (element_step_with replacer call F stack r)
              (seq 0 (array_length h r)) [])
           (fun js => ret (Some (JArray js))) h
    else
      bind (for_each (member_step_with replacer call F stack r) (own_keys h r) [])
           (fun ms => ret (Some (JObject ms))) h) by (by apply container_run).
  clearbody ref.
  set (Inv := fun s : state => st_heap s = h /\ visited s = {[r]} ∪ visited st).
  assert (Hdel : forall s, Inv s -> st_heap (visited_delete r s) = h /\
                                     visited (visited_delete r s) = visited st).
  { intros s [Hs Hvs]. split; [done|]. simpl. rewrite Hvs. set_solver. }
  unfold descend. apply wp_bind, wp_read. simpl.
  destruct (decide (r < length h)) as [Hlt|Hge].
  2:{ rewrite dangling_is_array in Href |- * by lia.
      rewrite dangling_own_keys in Href by lia.
      apply wp_bind, wp_read. simpl. rewrite dangling_own_keys by lia.
      simpl. apply wp_bind, wp_ret, wp_ret. split; [done|]. split; [simpl; set_solver|].
      split; [|done]. by rewrite Href. }
  assert (Hchild : forall k c s, Inv s ->
    wp (transform replacer call n (r :: path) (HObject r) k c) s
       (fun o s' =>
          Inv s' /\
          match o with
          | Ret t =>
              SerializeJSONProperty_with replacer call F (r :: stack) (HObject r) k c h
                = (R k t, h) /\
              (forall f, t = RVal (VFunction f) ->
                 (replacer (HObject r) k c h).1 = Ok (VFunction f))
          | Throw _ =>
              exists e,
                SerializeJSONProperty_with replacer call F (r :: stack) (HObject r) k c h
                  = (Throw e, h)
          | OutOfFuel => False
          end)).
  { intros k c s [Hs Hvs].
    pose proof (unvisited_add h (visited st) r Hlt Hnotin) as Hless.
    eapply wp_conseq.
    - apply (IH (m - 1) F (r :: path) (HObject r) k c s (r :: stack)); try done.
      + rewrite Hvs, Hv. done.
      + rewrite Hvs. lia.
      + lia.
      + lia.
    - intros o s' (Hs' & Hvs' & Ho). split; [split; congruence|done]. }
  destruct (is_array h r); subst ref.
  - set (E := element_step_with replacer call F stack r).
    set (len := array_length h r).
    apply wp_bind. eapply wp_conseq.
    { apply (wp_array_loop (array_body replacer call n path r) r
               (fun f i acc s =>
                  Inv s /\ i <= len < f + i /\ length acc = i /\
                  for_each E (seq 0 i) [] h = (render_elements R 0 acc [], h))
               (fun o s =>
                  Inv s /\
                  match o with
                  | Ret ts => for_each E (seq 0 len) [] h = (render_elements R 0 ts [], h)
                  | Throw _ => exists e, for_each E (seq 0 len) [] h = (Throw e, h)
                  | OutOfFuel => False
                  end)).
      - intros i acc s (_ & Hi & _). lia.
      - intros f i acc s ([Hs Hvs] & Hi & Hl & Hrel) Hexit. rewrite Hs in Hexit.
        fold len in Hexit. replace len with i by lia. by split.
      - intros f i acc s ([Hs Hvs] & Hi & Hl & Hrel) Hlt'. rewrite Hs in Hlt'.
        fold len in Hlt'. unfold array_body. apply wp_bind, wp_read. rewrite Hs.
        eapply wp_conseq; [by apply Hchild|].
        intros o s' [HI Ho]. destruct o as [t|e|]; [| |done].
        + destruct Ho as [Ho _].
          split; [done|]. split; [lia|]. split; [rewrite length_app; simpl; lia|].
          rewrite seq_S, for_each_app. simpl.
          rewrite (bind_run _ _ _ _ _ Hrel), render_elements_snoc. simpl. rewrite Hl.
          destruct (render_elements R 0 acc []) as [js| |]; simpl; [|done|done].
          unfold bind. unfold E. rewrite (element_step_with_run _ _ _ _ _ _ Ho).
          by destruct (R (pretty i) t).
        + split; [done|]. destruct Ho as [e' He'].
          replace len with (i + S (len - S i)) by lia.
          rewrite seq_app, for_each_app. rewrite (bind_run _ _ _ _ _ Hrel).
          pose proof (render_elements_settled R acc 0 []) as Hset.
          destruct (render_elements R 0 acc []) as [js|e0|]; simpl.
          * unfold bind. unfold E at 1. rewrite (element_step_with_run _ _ _ _ _ _ He').
            simpl. by eexists.
          * by eexists.
          * exfalso. apply Hset. apply Forall_forall. intros t _ k. apply HR.
      - split; [done|]. split; [|done]. split; [lia|].
        pose proof (array_length_width h r) as Hw'. fold len in Hw'. lia. }
    intros o s' [HI Ho]. destruct (Hdel _ HI) as [Hd1 Hd2].
    destruct o as [ts|e|]; [| |done].
    + apply wp_ret. split; [done|]. split; [done|]. split; [|done].
      rewrite (bind_run _ _ _ _ _ Ho). unfold R. cbn [resolved_to_json]. fold R.
      by destruct (render_elements R 0 ts []).
    + destruct Ho as [e' He']. split; [done|]. split; [done|].
      rewrite (bind_run _ _ _ _ _ He'). by eexists.
  - set (E := member_step_with replacer call F stack r).
    set (ks := own_keys h r).
    apply wp_bind, wp_read. simpl. fold ks.
    apply wp_bind. eapply wp_conseq.
    { apply (wp_for_each (member_body replacer call n path r)
               (fun l acc s =>
                  Inv s /\ exists pre, ks = pre ++ l /\ acc.*1 = pre /\
                  record_hook acc = None /\
                  for_each E pre [] h = (render_members R acc [], h))
               (fun o s =>
                  Inv s /\
                  match o with
                  | Ret ps =>
                      record_hook ps = None /\
                      for_each E ks [] h = (render_members R ps [], h)
                  | Throw _ => exists e, for_each E ks [] h = (Throw e, h)
                  | OutOfFuel => False
                  end)).
      - intros acc s (HI & pre & Hks & Hacc & Hrh & Hrel). rewrite app_nil_r in Hks.
        subst pre. by split.
      - intros k l acc s ([Hs Hvs] & pre & Hks & Hacc & Hrh & Hrel).
        assert (Hk : k ∈ ks) by (rewrite Hks; set_solver).
        assert (Hfresh : k ∉ acc.*1).
        { rewrite Hacc. pose proof (NoDup_own_keys h r) as Hnd. fold ks in Hnd.
          rewrite Hks in Hnd. apply NoDup_app in Hnd as (_ & Hdis & _).
          intros Hin. apply (Hdis k Hin). set_solver. }
        unfold member_body. apply wp_bind, wp_read. rewrite Hs.
        rewrite has_own_own_keys by done.
        apply wp_bind, wp_read, wp_bind. rewrite Hs.
        eapply wp_conseq; [by apply Hchild|].
        intros o s' [HI Ho]. destruct o as [t|e|]; [| |done].
        + destruct Ho as [Ho Hfun].
          apply wp_ret. split; [done|]. exists (pre ++ [k]).
          split; [by rewrite <- app_assoc|].
          rewrite prop_set_fresh by done. split; [by rewrite fmap_app, Hacc|].
          split.
          { apply record_hook_snoc; [done|]. intros -> f ->.
            pose proof (plain_toJSON_member h r (Hplain r) Hk) as Hmem.
            by rewrite (Hno _ _ _ _ (Hfun f eq_refl)) in Hmem. }
          rewrite for_each_app. simpl.
          rewrite (bind_run _ _ _ _ _ Hrel), render_members_snoc.
          destruct (render_members R acc []) as [ms| |]; simpl; [|done|done].
          unfold bind. unfold E. rewrite (member_step_with_run _ _ _ _ _ _ Ho).
          by destruct (R k t).
        + split; [done|]. destruct Ho as [e' He'].
          rewrite Hks, for_each_app. rewrite (bind_run _ _ _ _ _ Hrel).
          pose proof (render_members_settled R acc []) as Hset.
          destruct (render_members R acc []) as [ms|e0|]; simpl.
          * unfold bind. unfold E at 1. rewrite (member_step_with_run _ _ _ _ _ _ He').
            simpl. by eexists.
          * by eexists.
          * exfalso. apply Hset. apply Forall_forall. intros t _ k'. apply HR.
      - split; [done|]. by exists []. }
    intros o s' [HI Ho]. destruct (Hdel _ HI) as [Hd1 Hd2].
    destruct o as [ps|e|]; [| |done].
    + destruct Ho as [Hrh Ho].
      apply wp_ret. split; [done|]. split; [done|]. split; [|done].
      rewrite (bind_run _ _ _ _ _ Ho). unfold R. cbn [resolved_to_json]. rewrite Hrh. fold R.
      by destruct (render_members R ps []).
    + destruct Ho as [e' He']. split; [done|]. split; [done|].
      rewrite (bind_run _ _ _ _ _ He'). by eexists.
Qed.
End Agreement.



(** ** Containers with a [toJSON] method are not entered *)

Section Entered.
Variable replacer : holder -> string -> value -> heap -> result * heap.
Variable call : fn -> heap -> receiver -> list value -> result.
Hypothesis Hpure : pure_replacer replacer.
Variable h : heap.

Lemma transform_entered fuel : forall path parent key val st,
  st_heap st = h ->
  entered_context h parent (visited st) ->
  wp (transform replacer call fuel path parent key val) st
     (fun _ st' =>
        exists new, calls st' = calls st ++ new /\
          Forall (fun c => entered_context h (c_this c) (c_visited c)) new).
Proof.
  induction fuel as [|n IH]; intros path parent key val st Hh Hctx.
  { apply wp_out_of_fuel. exists []. by rewrite app_nil_r. }
  apply wp_transform, wp_bind, wp_call_replacer.
  intros res h' Hrep st1.
  assert (h' = h) as ->.
  { pose proof (Hpure parent key val (st_heap st)) as Hp. rewrite Hrep in Hp.
    simpl in Hp. by rewrite Hp. }
  set (Q := fun s : state =>
    exists new, calls s = calls st ++ new /\
      Forall (fun c => entered_context h (c_this c) (c_visited c)) new).
  assert (Hst1 : Q st1).
  { eexists. split; [done|]. by constructor. }
  destruct res as [v|e]; [|exact Hst1].
  destruct v as [| | | | | | | |r]; try (by apply wp_ret); try (by apply wp_throw).
  apply wp_bind, wp_read. simpl.
  destruct (as_function (lookup_toJSON h r)) as [f|] eqn:Hf.
  { apply wp_bind, wp_call_method. destruct (call _ _ _ _); [apply wp_ret|]; exact Hst1. }
  apply wp_enter; [intros _; exact Hst1|]. intros Hnotin.
  set (Inv := fun s : state =>
    st_heap s = h /\ visited s = {[r]} ∪ visited st /\ Q s).
  assert (Hchild : forall k v s, Inv s ->
    wp (transform replacer call n (r :: path) (HObject r) k v) s
       (fun o s' => match o with Ret _ => Inv s' | _ => Q s' end)).
  { intros k v s (Hs & Hvs & new & Hc & HP).
    eapply wp_conseq; [apply wp_and; [by apply child_frame|apply IH]|].
    - done.
    - split; [done|]. rewrite Hvs. set_solver.
    - intros o s' [Hframe (new' & Hc' & HP')].
      assert (HQ : Q s').
      { exists (new ++ new'). split; [by rewrite Hc', Hc, app_assoc|]. by apply Forall_app. }
      destruct o as [t| |]; [|done|done].
      destruct (Hframe t eq_refl) as [Hs' Hvs']. split; [congruence|]. split; [congruence|done]. }
  assert (Hdel : forall s, Q s -> Q (visited_delete r s)) by done.
  unfold descend. apply wp_bind, wp_read. simpl. destruct (is_array h r).
  - apply wp_bind. eapply wp_conseq.
    { apply (wp_array_loop (array_body replacer call n path r) r
               (fun _ _ _ s => Inv s) (fun _ s => Q s));
        [by intros ? ? ? (? & ? & ?)|by intros ? ? ? ? (? & ? & ?)| |by split].
      intros f i acc s HI Hlt. unfold array_body. apply wp_bind, wp_read.
      eapply wp_conseq; [by apply Hchild|]. by intros [] s'. }
    intros [items|e|] s' HQ; simpl; [apply wp_ret| |]; by apply Hdel.
  - apply wp_bind, wp_read, wp_bind. simpl. eapply wp_conseq.
    { apply (wp_for_each (member_body replacer call n path r)
               (fun _ _ s => Inv s) (fun _ s => Q s)); [by intros ? ? (? & ? & ?)| |by split].
      intros k l acc s HI. unfold member_body. apply wp_bind, wp_read.
      destruct (has_own _ _ _); [|apply wp_ret; exact HI].
      apply wp_bind, wp_read, wp_bind.
      eapply wp_conseq; [by apply Hchild|]. by intros [] s'. }
    intros [items|e|] s' HQ; simpl; [apply wp_ret| |]; by apply Hdel.
Qed.
End Entered.

(** X11: the replacer is never shown the inside of a container that has
    a [toJSON] method.  When the replacer leaves the store alone, the
    context of every replacer call below the root is a container without a
    [toJSON] method, and it is in the ancestor set at that call. *)
Theorem hooked_containers_are_not_entered replacer call fuel value space h c r :
  pure_replacer replacer ->
  c ∈ calls (asyncStringify replacer call fuel value space h).2 ->
  c_this c = HObject r ->
  as_function (lookup_toJSON h r) = None /\ r ∈ c_visited c.
Proof.
  intros Hpure. unfold asyncStringify, bind. fold (initial h).
  pose proof (transform_entered replacer call Hpure h fuel [] (HRoot value) "" value
                (initial h) eq_refl I) as H.
  unfold wp in H.
  destruct (transform replacer call fuel [] (HRoot value) "" value (initial h)) as [o st'].
  destruct H as (new & Hc & HP). simpl in Hc.
  assert (Hin : c ∈ calls st' -> c_this c = HObject r ->
                as_function (lookup_toJSON h r) = None /\ r ∈ c_visited c).
  { rewrite Hc. intros Hin Ht. rewrite Forall_forall in HP. specialize (HP c Hin).
    unfold entered_context in HP. by rewrite Ht in HP. }
  by destruct o.
Qed.

Lemma hooked_containers_are_not_entered_witness :
  pure_replacer identity /\
  Call [0] (HObject 0) "n" (num 1) {[0]} (Ok (num 1))
    ∈ calls (asyncStringify identity date_hook 4 (VObject 0) NoSpace dated_heap).2 /\
  as_function (lookup_toJSON dated_heap 0) = None /\
  0 ∈ ({[0]} : gset ref).
Proof.
  assert (Hin : Call [0] (HObject 0) "n" (num 1) {[0]} (Ok (num 1))
    ∈ calls (asyncStringify identity date_hook 4 (VObject 0) NoSpace dated_heap).2).
  { vm_compute. do 2 right. left. }
  split; [exact identity_pure|]. split; [exact Hin|].
  destruct (hooked_containers_are_not_entered identity date_hook 4 (VObject 0) NoSpace
              dated_heap _ 0 identity_pure Hin eq_refl) as [Hplain Hanc].
  split; [exact Hplain|exact Hanc].
Defined.
